(** * Switchipy: theme pairing, mode classification and dark-window logic

    A shallow embedding of the decision logic of the Switchipy theme
    switcher ([switchipy/themes.py], [switchipy/cli.py], [switchipy/config.py],
    [app.py]) together with the properties its specification states.

    Modelling conventions.
    - A Python [str] is a [list ascii]: theme names, times of day and keys of
      the pairing table are sequences of 8-bit characters.  Case folding under
      [re.IGNORECASE] only ever relates the ASCII letters to the letters of the
      patterns used here, so [lower] folds [A-Z] and nothing else.
    - A Python [dict] keeps insertion order and is iterated in that order
      ([find_counterpart_theme] returns at the first hit), so dictionaries are
      association lists with an in-place update.
    - The desktop environment (xfconf properties, the theme directories, the
      settings file, what was printed) is an explicit [World] record threaded
      through the operations. *)

From Stdlib Require Import List Ascii String Bool Arith Lia Permutation.
Import ListNotations.

(** ** Python strings *)

Module PyStr.

Definition str := list ascii.

(** String literals of the source are written [lit "..."]. *)
Definition lit (s : string) : str := list_ascii_of_string s.

Definition chr_eqb (a b : ascii) : bool := Ascii.eqb a b.

Fixpoint str_eqb (a b : str) : bool :=
  match a, b with
  | [], [] => true
  | x :: a', y :: b' => chr_eqb x y && str_eqb a' b'
  | _, _ => false
  end.

(** [a < b] on [str]: lexicographic on code points, a proper prefix first. *)
Fixpoint str_ltb (a b : str) : bool :=
  match a, b with
  | _, [] => false
  | [], _ :: _ => true
  | x :: a', y :: b' =>
      if nat_of_ascii x <? nat_of_ascii y then true
      else if nat_of_ascii y <? nat_of_ascii x then false
      else str_ltb a' b'
  end.

(** [a <= b] on [str]. *)
Fixpoint str_leb (a b : str) : bool :=
  match a, b with
  | [], _ => true
  | _ :: _, [] => false
  | x :: a', y :: b' =>
      if nat_of_ascii x <? nat_of_ascii y then true
      else if nat_of_ascii y <? nat_of_ascii x then false
      else str_leb a' b'
  end.

Definition str_geb (a b : str) : bool := str_leb b a.

(** [x in l] for a list of strings. *)
Fixpoint mem (x : str) (l : list str) : bool :=
  match l with
  | [] => false
  | y :: l' => str_eqb x y || mem x l'
  end.

(** [sorted(l)]: the ascending rearrangement of [l] under [<=]. *)
Fixpoint insert_sorted (x : str) (l : list str) : list str :=
  match l with
  | [] => [x]
  | y :: l' => if str_leb x y then x :: y :: l' else y :: insert_sorted x l'
  end.

Fixpoint sorted (l : list str) : list str :=
  match l with
  | [] => []
  | x :: l' => insert_sorted x (sorted l')
  end.

Definition comma : ascii := ","%char.
Definition hyphen : ascii := "-"%char.

(** [",".join(l)] *)
Fixpoint join_comma (l : list str) : str :=
  match l with
  | [] => []
  | [w] => w
  | w :: ws => w ++ comma :: join_comma ws
  end.

(** [s.split(sep)] for a one-character separator; the result is never empty. *)
Fixpoint split_on (sep : ascii) (s : str) : list str :=
  match s with
  | [] => [[]]
  | c :: s' =>
      if chr_eqb c sep then [] :: split_on sep s'
      else match split_on sep s' with
           | w :: ws => (c :: w) :: ws
           | [] => [[c]]
           end
  end.

(** [l[0]] on the result of a split. *)
Definition first (l : list str) : str := hd [] l.

(** [str.isspace] on a code point below 256. *)
Definition is_space (c : ascii) : bool :=
  let n := nat_of_ascii c in
  ((9 <=? n) && (n <=? 13)) || ((28 <=? n) && (n <=? 32))
  || (n =? 133) || (n =? 160).

Fixpoint lstrip (s : str) : str :=
  match s with
  | c :: s' => if is_space c then lstrip s' else s
  | [] => []
  end.

(** [s.strip()] *)
Definition strip (s : str) : str := rev (lstrip (rev (lstrip s))).

End PyStr.
Import PyStr.

(** ** The fragment of [re] the program uses *)

Module Re.

(** Case folding of [re.IGNORECASE]. *)
Definition lower (c : ascii) : ascii :=
  let n := nat_of_ascii c in
  if (65 <=? n) && (n <=? 90) then ascii_of_nat (n + 32) else c.

Definition ci_eqb (p c : ascii) : bool := chr_eqb (lower p) (lower c).

(** A literal word matched at the start of the subject, ignoring case;
    the unconsumed rest is returned. *)
Fixpoint match_lit (w s : str) : option str :=
  match w, s with
  | [], _ => Some s
  | _ :: _, [] => None
  | p :: w', c :: s' => if ci_eqb p c then match_lit w' s' else None
  end.

(** [w1|w2|...]: the first alternative that matches wins. *)
Fixpoint match_alt (ws : list str) (s : str) : option str :=
  match ws with
  | [] => None
  | w :: ws' =>
      match match_lit w s with
      | Some r => Some r
      | None => match_alt ws' s
      end
  end.

(** [re.search(w1|w2|..., s, flags=re.IGNORECASE) is not None]: a match is
    tried at every position, left to right. *)
Fixpoint search_alt (ws : list str) (s : str) : bool :=
  match match_alt ws s with
  | Some _ => true
  | None =>
      match s with
      | [] => false
      | _ :: s' => search_alt ws s'
      end
  end.

(** [-(w1|w2|...)] matched at the start of the subject. *)
Definition match_hyphen_alt (ws : list str) (s : str) : option str :=
  match s with
  | c :: s' => if ci_eqb hyphen c then match_alt ws s' else None
  | [] => None
  end.

(** [re.sub] of the pattern -(w1|w2|...) by the empty string, with the default
    [count=0]: every non-overlapping match, found left to right, is
    replaced by the empty string.  [skip] is the number of characters of
    the match in progress that are still to be dropped. *)
Fixpoint sub_hyphen_alt_from (ws : list str) (skip : nat) (s : str) : str :=
  match s with
  | [] => []
  | c :: s' =>
      match skip with
      | S k => sub_hyphen_alt_from ws k s'
      | O =>
          match match_hyphen_alt ws s with
          | Some rest => sub_hyphen_alt_from ws (List.length s' - List.length rest) s'
          | None => c :: sub_hyphen_alt_from ws 0 s'
          end
      end
  end.

Definition sub_hyphen_alt (ws : list str) (s : str) : str :=
  sub_hyphen_alt_from ws 0 s.

Definition is_digit (c : ascii) : bool :=
  let n := nat_of_ascii c in (48 <=? n) && (n <=? 57).

Definition colon : ascii := ":"%char.
Definition newline : ascii := ascii_of_nat 10.

(** [re.match(r"^\d{2}:\d{2}-\d{2}:\d{2}$", s)]: [$] matches at the end of
    the subject and also just before a final newline. *)
Definition match_interval (s : str) : bool :=
  match s with
  | h1 :: h2 :: c1 :: m1 :: m2 :: d :: h3 :: h4 :: c2 :: m3 :: m4 :: rest =>
      is_digit h1 && is_digit h2 && chr_eqb c1 colon
      && is_digit m1 && is_digit m2 && chr_eqb d hyphen
      && is_digit h3 && is_digit h4 && chr_eqb c2 colon
      && is_digit m3 && is_digit m4
      && match rest with
         | [] => true
         | [n] => chr_eqb n newline
         | _ => false
         end
  | _ => false
  end.

End Re.
Import Re.

(** ** [switchipy/themes.py] *)

Inductive Mode := Light | Dark.

Definition opposite (m : Mode) : Mode :=
  match m with Light => Dark | Dark => Light end.

Definition dark_words : list str := [lit "dark"; lit "black"; lit "noir"].
Definition suffix_words : list str :=
  [lit "dark"; lit "light"; lit "black"; lit "noir"].

(** [re.search(r"dark|black|noir", theme, flags=re.IGNORECASE)] *)
Definition is_dark_name (theme : str) : bool := search_alt dark_words theme.

(** [re.sub] of [r"-(dark|light|black|noir)"] by the empty string in
    [theme_name], with [flags=re.IGNORECASE]. *)
Definition base_name (theme_name : str) : str :=
  sub_hyphen_alt suffix_words theme_name.

(** The body of [get_current_mode] once [theme_name] is a string. *)
Definition classify (theme_name : str) : Mode :=
  if is_dark_name theme_name then Dark else Light.


(** The theme directories as the scans see them: [None] is a directory of
    [THEME_DIRS] that does not exist, otherwise its entries in the order
    [iterdir] yields them. *)
Record DirEntry := {
  entry_name : str;
  entry_is_dir : bool;
  entry_has_xfwm4 : bool   (* [directory / name / "xfwm4"] exists *)
}.

Definition ThemeDir := option (list DirEntry).

(** An insertion-ordered [dict] from strings to [V]. *)
Definition Dict (V : Type) := list (str * V).

Fixpoint dict_get {V} (d : Dict V) (k : str) : option V :=
  match d with
  | [] => None
  | (k', v) :: d' => if str_eqb k' k then Some v else dict_get d' k
  end.

(** [d[k] = v]: an existing key keeps its place, a new key goes last. *)
Fixpoint dict_set {V} (d : Dict V) (k : str) (v : V) : Dict V :=
  match d with
  | [] => [(k, v)]
  | (k', v') :: d' =>
      if str_eqb k' k then (k', v) :: d' else (k', v') :: dict_set d' k v
  end.

(** [theme_groups[base_name].append(theme_name)] on a [defaultdict(list)]. *)
Definition groups_append (g : Dict (list str)) (base theme_name : str)
  : Dict (list str) :=
  match dict_get g base with
  | Some members => dict_set g base (members ++ [theme_name])
  | None => dict_set g base [theme_name]
  end.

(** The inner loop of the scan over one directory. *)
Definition scan_entries (g : Dict (list str)) (entries : list DirEntry)
  : Dict (list str) :=
  fold_left
    (fun g theme_path =>
       if entry_is_dir theme_path
       then let theme_name := entry_name theme_path in
            groups_append g (base_name theme_name) theme_name
       else g)
    entries g.

Definition scan_directory (g : Dict (list str)) (directory : ThemeDir)
  : Dict (list str) :=
  match directory with
  | None => g
  | Some entries => scan_entries g entries
  end.

(** Lines 59-74 of [generate_theme_map]: the families, keyed by base name. *)
Definition theme_groups (dirs : list ThemeDir) : Dict (list str) :=
  fold_left scan_directory dirs [].

Definition dark_variants (themes : list str) : list str :=
  filter is_dark_name themes.

Definition light_variants (themes : list str) : list str :=
  filter (fun theme => negb (is_dark_name theme)) themes.

Definition light_str (themes : list str) : str :=
  join_comma (sorted (light_variants themes)).

Definition dark_str (themes : list str) : str :=
  join_comma (sorted (dark_variants themes)).

Definition nonempty {A} (l : list A) : bool :=
  match l with [] => false | _ :: _ => true end.

(** The body of the loop over [theme_groups.items()] (lines 79-98). *)
Definition add_family (mapping : Dict str) (family : str * list str)
  : Dict str :=
  let themes := snd family in
  if nonempty (light_variants themes) && nonempty (dark_variants themes)
  then dict_set (dict_set mapping (light_str themes) (dark_str themes))
                (dark_str themes) (light_str themes)
  else mapping.

Definition generate_theme_map (dirs : list ThemeDir) : Dict str :=
  fold_left add_family (theme_groups dirs) [].

(** [list_all_themes] collects the names into a [set] before sorting. *)
Fixpoint set_add (x : str) (l : list str) : list str :=
  match l with
  | [] => [x]
  | y :: l' => if str_eqb x y then l else y :: set_add x l'
  end.

Definition list_all_themes (dirs : list ThemeDir) : list str :=
  sorted
    (fold_left
       (fun themes directory =>
          match directory with
          | None => themes
          | Some entries =>
              fold_left
                (fun themes theme_path =>
                   if entry_is_dir theme_path
                   then set_add (entry_name theme_path) themes
                   else themes)
                entries themes
          end)
       dirs []).

Fixpoint find_counterpart_theme (theme_name : str) (theme_map : Dict str)
  : option str :=
  match theme_map with
  | [] => None
  | (key, value) :: rest =>
      if mem theme_name (split_on comma key)
      then Some (first (split_on comma value))
      else if mem theme_name (split_on comma value)
      then Some (first (split_on comma key))
      else find_counterpart_theme theme_name rest
  end.

(** ** [switchipy/config.py] *)

Record Config := {
  auto_switch_enabled : bool;
  dark_start : str;
  dark_end : str;
  last_theme : str
}.

Definition DEFAULT_CONFIG : Config := {|
  auto_switch_enabled := false;
  dark_start := lit "19:00";
  dark_end := lit "05:00";
  last_theme := []
|}.

(** ** The environment *)

Inductive Event :=
| Printed (line : str)
| IconUpdated (mode : Mode)
| MenuRebuilt (interval_label : str).

Record World := {
  theme_dirs : list ThemeDir;       (* what [THEME_DIRS] holds *)
  xfconf : Dict (Dict str);         (* channel -> property -> value *)
  config_file : option Config;      (* the settings file, when readable *)
  config_writable : bool;           (* whether [open(CONFIG_PATH, "w")] succeeds *)
  trace : list Event                (* printed lines and tray updates, oldest first *)
}.

Definition emit (e : Event) (w : World) : World := {|
  theme_dirs := theme_dirs w;
  xfconf := xfconf w;
  config_file := config_file w;
  config_writable := config_writable w;
  trace := trace w ++ [e]
|}.

Definition print (line : str) (w : World) : World := emit (Printed line) w.

(** [switchipy/utils.py]: a failed query yields [None]; the output is
    stripped by [run_cmd]. *)
Definition xfconf_query_get (channel prop : str) (w : World) : option str :=
  match dict_get (xfconf w) channel with
  | Some props => option_map strip (dict_get props prop)
  | None => None
  end.

Definition xfconf_query_set (channel prop value : str) (w : World) : World :=
  let props := match dict_get (xfconf w) channel with
               | Some props => props
               | None => []
               end in
  {| theme_dirs := theme_dirs w;
     xfconf := dict_set (xfconf w) channel (dict_set props prop value);
     config_file := config_file w;
     config_writable := config_writable w;
     trace := trace w |}.

Definition load_config (w : World) : Config :=
  match config_file w with
  | Some config => config
  | None => DEFAULT_CONFIG
  end.

Definition save_config (config : Config) (w : World) : World :=
  if config_writable w
  then {| theme_dirs := theme_dirs w;
          xfconf := xfconf w;
          config_file := Some config;
          config_writable := config_writable w;
          trace := trace w |}
  else print (lit "[Config] Could not save config") w.

Definition XFCONF_CHANNEL : str := lit "xsettings".
Definition XFCONF_PROPERTY : str := lit "/Net/ThemeName".

(** [xfconf_query_get(...)], or the empty string when the query failed. *)
Definition get_current_theme (w : World) : str :=
  match xfconf_query_get XFCONF_CHANNEL XFCONF_PROPERTY w with
  | Some name => name
  | None => []
  end.

Definition xfwm_path_exists (directory : ThemeDir) (theme_name : str) : bool :=
  match directory with
  | None => false
  | Some entries =>
      existsb
        (fun e => str_eqb (entry_name e) theme_name
                  && entry_is_dir e && entry_has_xfwm4 e)
        entries
  end.

Definition set_theme (theme_name : str) (w : World) : World :=
  let w1 := xfconf_query_set XFCONF_CHANNEL XFCONF_PROPERTY theme_name w in
  if existsb (fun directory => xfwm_path_exists directory theme_name)
             (theme_dirs w1)
  then xfconf_query_set (lit "xfwm4") (lit "/general/theme") theme_name w1
  else w1.

Definition get_current_mode (theme_name : option str) (w : World) : Mode :=
  let theme_name := match theme_name with
                    | None => get_current_theme w
                    | Some name => name
                    end in
  classify theme_name.

(** Truthiness of [str | None] in [if counterpart:]. *)
Definition truthy (v : option str) : option str :=
  match v with
  | Some (c :: s) => Some (c :: s)
  | _ => None
  end.

(** ** [app.py] *)

Module App.

(** The fields of [SwitchipyApp] the logic reads and writes. *)
Record t := {
  config : Config;
  theme_map : Dict str
}.

Definition update_icon (mode : Mode) (w : World) : World :=
  emit (IconUpdated mode) w.

Definition rebuild_menu (self : t) (w : World) : World :=
  emit (MenuRebuilt (lit "Set Dark Interval (" ++ dark_start (config self)
                     ++ lit "-" ++ dark_end (config self) ++ lit ")")) w.

Definition toggle_theme (self : t) (w : World) : World :=
  let current := get_current_theme w in
  match truthy (find_counterpart_theme current (theme_map self)) with
  | Some counterpart =>
      let w1 := set_theme counterpart w in
      update_icon (get_current_mode None w1) w1
  | None => print (lit "[Toggle] No counterpart found for " ++ current) w
  end.

(** [now] is [datetime.now().strftime("%H:%M")]. *)
Definition is_dark_time (self : t) (now : str) : bool :=
  let dark_start := dark_start (config self) in
  let dark_end := dark_end (config self) in
  if str_ltb dark_start dark_end
  then str_leb dark_start now && str_ltb now dark_end
  else str_geb now dark_start || str_ltb now dark_end.

(** What the [zenity] dialog gave back: the text entered, or the failure
    that [check=True] raises (dialog dismissed, command failed). *)
Inductive Dialog :=
| Entered (stdout : str)
| Failed (error : str).

Definition set_dark_interval (self : t) (dialog : Dialog) (w : World)
  : t * World :=
  match dialog with
  | Failed e => (self, print (lit "Could not set dark interval: " ++ e) w)
  | Entered stdout =>
      let interval := strip stdout in
      if match_interval interval
      then match split_on hyphen interval with
           | [start; end_] =>
               let self' := {|
                 config := {|
                   auto_switch_enabled := auto_switch_enabled (config self);
                   dark_start := start;
                   dark_end := end_;
                   last_theme := last_theme (config self) |};
                 theme_map := theme_map self |} in
               (self', rebuild_menu self' (save_config (config self') w))
           | _ =>
               (* the unpacking raises ValueError, caught by [except] *)
               (self,
                print (lit "Could not set dark interval: "
                       ++ lit "not enough values to unpack") w)
           end
      else (self, print (lit "Invalid time format. Use HH:MM-HH:MM") w)
  end.

End App.

(** ** [switchipy/cli.py] *)

Module Cli.

Definition list_themes (w : World) : World :=
  let theme_map := generate_theme_map (theme_dirs w) in
  match theme_map with
  | [] => print (lit "No theme pairs found.") w
  | _ =>
      fold_left
        (fun w kv =>
           if search_alt [lit "dark"] (fst kv) then w
           else print (repeat hyphen 30)
                  (print (lit "Dark:  " ++ snd kv)
                     (print (lit "Light: " ++ fst kv) w)))
        theme_map
        (print (repeat "="%char 50) (print (lit "Available Theme Pairs:") w))
  end.

Definition toggle_theme (w : World) : World :=
  let current_theme := get_current_theme w in
  let theme_map := generate_theme_map (theme_dirs w) in
  match truthy (find_counterpart_theme current_theme theme_map) with
  | Some counterpart =>
      let w1 := set_theme counterpart w in
      let new_mode := get_current_mode None w1 in
      print (lit "Switched to: " ++ counterpart ++
             match new_mode with
             | Dark => lit " (dark mode)"
             | Light => lit " (light mode)"
             end) w1
  | None =>
      list_themes
        (print (lit "Available themes:")
           (print (lit "No counterpart found for " ++ current_theme) w))
  end.

Definition is_dark_time (now : str) (w : World) : bool * World :=
  let config := load_config w in
  let dark_start := dark_start config in
  let dark_end := dark_end config in
  let is_dark :=
    if str_ltb dark_start dark_end
    then str_leb dark_start now && str_ltb now dark_end
    else str_geb now dark_start || str_ltb now dark_end in
  (is_dark,
   print (lit "Should be dark mode: " ++ (if is_dark then lit "Yes" else lit "No"))
     (print (lit "Dark mode hours: " ++ dark_start ++ lit " - " ++ dark_end)
        (print (lit "Current time: " ++ now) w))).



Definition with_auto_switch (config : Config) (enabled : bool) : Config := {|
  auto_switch_enabled := enabled;
  dark_start := dark_start config;
  dark_end := dark_end config;
  last_theme := last_theme config
|}.

Definition with_dark_interval (config : Config) (start_time end_time : str)
  : Config := {|
  auto_switch_enabled := auto_switch_enabled config;
  dark_start := start_time;
  dark_end := end_time;
  last_theme := last_theme config
|}.

Definition set_auto_switch (enabled : bool) (w : World) : World :=
  let config := with_auto_switch (load_config w) enabled in
  print (lit "Auto-switch " ++ (if enabled then lit "enabled" else lit "disabled"))
    (save_config config w).

(** The [interval] command: the two arguments are stored as they are. *)
Definition set_dark_interval (start_time end_time : str) (w : World) : World :=
  let config := with_dark_interval (load_config w) start_time end_time in
  print (lit "Dark mode interval set to: " ++ start_time ++ lit " - " ++ end_time)
    (save_config config w).

End Cli.

(** ** [switchipy/autoswitch.py] *)

Module AutoSwitch.

(** One pass of the body of the [while True] loop of [start_auto_switch],
    without the sleep; [now] is the clock reading of that pass. *)
Definition tick (app : App.t) (now : str) (w : World) : World :=
  if auto_switch_enabled (App.config app)
  then
    let current_mode := get_current_mode None w in
    let should_be_dark := App.is_dark_time app now in
    match should_be_dark, current_mode with
    | true, Light => App.toggle_theme app w
    | false, Dark => App.toggle_theme app w
    | _, _ => w
    end
  else w.


End AutoSwitch.

(** ** Sample inputs *)

Definition theme_dir_entry (name : string) : DirEntry :=
  {| entry_name := lit name; entry_is_dir := true; entry_has_xfwm4 := false |}.

(** Adwaita is installed both under the user's themes and system-wide. *)
Definition dirs_with_shared_name : list ThemeDir :=
  [ Some [theme_dir_entry "Adwaita"; theme_dir_entry "Adwaita-dark"];
    Some [theme_dir_entry "Adwaita"] ].

(** Theme directories whose names contain commas. *)
Definition dirs_with_commas : list ThemeDir :=
  [ Some [theme_dir_entry "A"; theme_dir_entry "A-light";
          theme_dir_entry "A-dark";
          theme_dir_entry "A,A-light"; theme_dir_entry "A,A-dark"];
    None ].

Definition dirs_with_comma_pair : list ThemeDir :=
  [ Some [theme_dir_entry "a,b"; theme_dir_entry "a,b-dark"]; None ].

Definition dirs_adwaita : list ThemeDir :=
  [ Some [theme_dir_entry "Adwaita"; theme_dir_entry "Adwaita-Light";
          theme_dir_entry "Adwaita-Dark"; theme_dir_entry "Greybird"];
    None ].

(** The same themes, spread over two search paths and met in another order. *)
Definition dirs_adwaita_reordered : list ThemeDir :=
  [ Some [theme_dir_entry "Adwaita-Dark"; theme_dir_entry "Greybird"];
    Some [theme_dir_entry "Adwaita-Light"; theme_dir_entry "Adwaita"] ].

(** A desktop running Greybird, which has no dark sibling installed. *)
Definition world_greybird : World := {|
  theme_dirs := dirs_adwaita;
  xfconf := [(XFCONF_CHANNEL, [(XFCONF_PROPERTY, lit "Greybird")])];
  config_file := None;
  config_writable := true;
  trace := []
|}.

Definition app_greybird : App.t := {|
  App.config := DEFAULT_CONFIG;
  App.theme_map := generate_theme_map dirs_adwaita
|}.


(** An application whose settings hold the given dark window. *)
Definition app_with_window (start end_ : string) : App.t := {|
  App.config := {| auto_switch_enabled := true;
                   dark_start := lit start;
                   dark_end := lit end_;
                   last_theme := [] |};
  App.theme_map := []
|}.



(** A desktop with a single theme installed. *)
Definition world_only_greybird : World := {|
  theme_dirs := [Some [theme_dir_entry "Greybird"]; None];
  xfconf := [];
  config_file := None;
  config_writable := true;
  trace := []
|}.

(** ** The properties, in the specification's words *)

(** Lexical order on strings: a proper prefix comes first, otherwise the
    first differing character decides. *)
Inductive lex_lt : str -> str -> Prop :=
| lex_lt_prefix : forall y b, lex_lt [] (y :: b)
| lex_lt_head : forall x y a b,
    nat_of_ascii x < nat_of_ascii y -> lex_lt (x :: a) (y :: b)
| lex_lt_tail : forall x a b, lex_lt a b -> lex_lt (x :: a) (x :: b).

Definition lex_le (a b : str) : Prop := lex_lt a b \/ a = b.

(** The dark window of the specification: half-open when [start < end],
    wrapping past midnight otherwise. *)
Definition dark_window (start end_ now : str) : Prop :=
  (lex_lt start end_ /\ lex_le start now /\ lex_lt now end_)
  \/ (lex_le end_ start /\ (lex_le start now \/ lex_lt now end_)).

(** [s] contains the lower-case word [w], ignoring case, at any position. *)
Definition contains_ci (w s : str) : Prop :=
  exists pre mid post, s = pre ++ mid ++ post /\ map lower mid = w.

(** A hyphen followed by one of the words of [ws] in any mix of cases. *)
Definition hyphen_word (ws : list str) (tok : str) : Prop :=
  exists w, tok = hyphen :: w /\ In (map lower w) ws.

(** No hyphenated mode word occurs anywhere in [s]. *)
Definition suffix_free (s : str) : Prop :=
  forall pre tok post, hyphen_word suffix_words tok -> s <> pre ++ tok ++ post.

Definition comma_free (s : str) : Prop := ~ In comma s.

(** No theme (sub-directory of a scanned directory) has a comma in its name. *)
Definition names_comma_free (dirs : list ThemeDir) : Prop :=
  forall entries e, In (Some entries) dirs -> In e entries ->
                    entry_is_dir e = true -> comma_free (entry_name e).

(** The theme is on neither side of any entry of the table. *)
Definition no_counterpart (theme_name : str) (theme_map : Dict str) : Prop :=
  forall key value,
    In (key, value) theme_map ->
    ~ In theme_name (split_on comma key)
    /\ ~ In theme_name (split_on comma value).

(** An occurrence of one of the words, ignoring case. *)
Definition occurs (ws : list str) (s : str) : Prop :=
  exists w pre mid post,
    In w ws /\ s = pre ++ mid ++ post /\ map lower mid = map lower w.

(** Everything but the trace. *)
Definition same_state (w w' : World) : Prop :=
  theme_dirs w' = theme_dirs w
  /\ xfconf w' = xfconf w
  /\ config_file w' = config_file w
  /\ config_writable w' = config_writable w.

(** A list has a member of the given mode. *)
Definition has_mode (m : Mode) (themes : list str) : Prop :=
  exists x, In x themes /\ classify x = m.

(** The two entries a family with both modes puts into the table. *)
Definition family_entry (themes : list str) (k v : str) : Prop :=
  has_mode Light themes /\ has_mode Dark themes
  /\ ((k = light_str themes /\ v = dark_str themes)
      \/ (k = dark_str themes /\ v = light_str themes)).

(** All names on the key side have one mode and all on the value side the other. *)
Definition entry_modes (k v : str) : Prop :=
  exists m,
    (forall t, In t (split_on comma k) -> classify t = m)
    /\ (forall t, In t (split_on comma v) -> classify t = opposite m).

(** [k] is one of the two canonical keys of the family. *)
Definition family_key (themes : list str) (k : str) : Prop :=
  k = light_str themes \/ k = dark_str themes.

(** A family of the grouping: it is not empty, its members share the base
    name it is filed under, and they all satisfy [P]. *)
Definition family_ok (P : str -> Prop) (f : str * list str) : Prop :=
  snd f <> [] /\ forall x, In x (snd f) -> base_name x = fst f /\ P x.

(** A grouping: base names are filed once, and every family is in order. *)
Definition groups_ok (P : str -> Prop) (g : Dict (list str)) : Prop :=
  NoDup (map fst g) /\ forall f, In f g -> family_ok P f.

(** The theme [x] is a member of the family filed under [base]. *)
Definition filed (g : Dict (list str)) (base x : str) : Prop :=
  exists members, dict_get g base = Some members /\ In x members.

Definition digit_val (c : ascii) : nat := nat_of_ascii c - 48.

(** Minutes since midnight of a zero-padded HH:MM time of day, as
    [strftime("%H:%M")] writes it. *)
Definition hhmm_minutes (s : str) : option nat :=
  match s with
  | [h1; h2; c; m1; m2] =>
      let hours := 10 * digit_val h1 + digit_val h2 in
      let minutes := 10 * digit_val m1 + digit_val m2 in
      if is_digit h1 && is_digit h2 && chr_eqb c colon
         && is_digit m1 && is_digit m2
         && (hours <? 24) && (minutes <? 60)
      then Some (hours * 60 + minutes)
      else None
  | _ => None
  end.

(** The mode the dark window asks for at the time [now]. *)
Definition window_mode (app : App.t) (now : str) : Mode :=
  if App.is_dark_time app now then Dark else Light.

(** Two digits, a colon, two digits. *)
Definition hhmm_shape (s : str) : bool :=
  match s with
  | [h1; h2; c; m1; m2] =>
      is_digit h1 && is_digit h2 && chr_eqb c colon
      && is_digit m1 && is_digit m2
  | _ => false
  end.

(** The names of the theme directories, in the order the scans meet them. *)
Definition scanned_names (dirs : list ThemeDir) : list str :=
  flat_map
    (fun directory =>
       match directory with
       | None => []
       | Some entries => map entry_name (filter entry_is_dir entries)
       end)
    dirs.

(** Ascending, with no two neighbours equal. *)
Fixpoint strictly_ascending (l : list str) : Prop :=
  match l with
  | [] => True
  | x :: l' => (forall y, In y l' -> lex_lt x y) /\ strictly_ascending l'
  end.


(** The side of the family opposite to the mode of [t], in sorted order. *)
Definition opposite_side (themes : list str) (t : str) : list str :=
  sorted (match classify t with
          | Light => dark_variants themes
          | Dark => light_variants themes
          end).

(** Every entry of the table stems from a family of the grouping. *)
Definition table_of_groups (groups : Dict (list str)) (theme_map : Dict str)
  : Prop :=
  forall k v, In (k, v) theme_map ->
    exists base themes, In (base, themes) groups /\ family_entry themes k v.

(** Ascending: every element is at most the ones after it. *)
Fixpoint ascending_from (l : list str) : Prop :=
  match l with
  | [] => True
  | x :: l' => (forall y, In y l' -> lex_le x y) /\ ascending_from l'
  end.

(** The members filed under a base name, none when the name is not filed. *)
Definition members_of (g : Dict (list str)) (base : str) : list str :=
  match dict_get g base with
  | Some members => members
  | None => []
  end.

(** The names whose base name is [base], in the given order. *)
Definition with_base (base : str) (names : list str) : list str :=
  filter (fun x => str_eqb (base_name x) base) names.

(** The set of names [list_all_themes] has collected before sorting. *)
Definition collected_themes (dirs : list ThemeDir) (themes : list str)
  : list str :=
  fold_left
    (fun themes directory =>
       match directory with
       | None => themes
       | Some entries =>
           fold_left
             (fun themes theme_path =>
                if entry_is_dir theme_path
                then set_add (entry_name theme_path) themes
                else themes)
             entries themes
       end)
    dirs themes.


(** ** Strings: equality and order *)

Lemma chr_eqb_eq a b : chr_eqb a b = true <-> a = b.
Proof. apply Ascii.eqb_eq. Qed.

Lemma chr_eqb_refl a : chr_eqb a a = true.
Proof. now apply chr_eqb_eq. Qed.

Lemma str_eqb_eq a b : str_eqb a b = true <-> a = b.
Proof.
  revert b; induction a as [|x a IH]; intros [|y b]; simpl;
    try (split; [discriminate | discriminate]); try tauto.
  rewrite andb_true_iff, chr_eqb_eq, IH.
  split; [intros [-> ->]; reflexivity | intros H; inversion H; auto].
Qed.

Lemma str_eqb_refl a : str_eqb a a = true.
Proof. now apply str_eqb_eq. Qed.

Lemma str_eqb_neq a b : str_eqb a b = false <-> a <> b.
Proof.
  split.
  - intros H E. apply str_eqb_eq in E. congruence.
  - intros H. destruct (str_eqb a b) eqn:E; [|reflexivity].
    apply str_eqb_eq in E. contradiction.
Qed.

Lemma mem_In x l : mem x l = true <-> In x l.
Proof.
  induction l as [|y l IH]; simpl; [split; [discriminate | tauto]|].
  rewrite orb_true_iff, str_eqb_eq, IH. split; intros [H|H]; auto.
Qed.

Lemma nat_of_ascii_inj x y : nat_of_ascii x = nat_of_ascii y -> x = y.
Proof.
  intros H. rewrite <- (ascii_nat_embedding x), <- (ascii_nat_embedding y).
  now rewrite H.
Qed.

Lemma str_ltb_lex a b : str_ltb a b = true <-> lex_lt a b.
Proof.
  revert b; induction a as [|x a IH]; intros [|y b]; simpl.
  - split; [discriminate | intros H; inversion H].
  - split; [constructor | reflexivity].
  - split; [discriminate | intros H; inversion H].
  - destruct (nat_of_ascii x <? nat_of_ascii y) eqn:L.
    + apply Nat.ltb_lt in L. split; [intros _; now constructor | reflexivity].
    + apply Nat.ltb_ge in L.
      destruct (nat_of_ascii y <? nat_of_ascii x) eqn:G.
      * apply Nat.ltb_lt in G. split; [discriminate|].
        intros H; inversion H; subst; lia.
      * apply Nat.ltb_ge in G.
        assert (x = y) by (apply nat_of_ascii_inj; lia). subst y.
        rewrite IH. split; [now constructor|].
        intros H; inversion H; subst; [lia | assumption].
Qed.

Lemma str_leb_ltb a b : str_leb a b = negb (str_ltb b a).
Proof.
  revert b; induction a as [|x a IH]; intros [|y b]; simpl; try reflexivity.
  destruct (nat_of_ascii x <? nat_of_ascii y) eqn:L;
    destruct (nat_of_ascii y <? nat_of_ascii x) eqn:G; try reflexivity.
  - apply Nat.ltb_lt in L. apply Nat.ltb_lt in G. lia.
  - apply IH.
Qed.

Lemma lex_lt_irrefl a : ~ lex_lt a a.
Proof.
  induction a as [|x a IH]; intros H; inversion H; subst; [lia | auto].
Qed.

Lemma lex_lt_asym a b : lex_lt a b -> ~ lex_lt b a.
Proof.
  induction 1; intros H'; inversion H'; subst; try lia; auto.
Qed.

Lemma lex_total a b : lex_lt a b \/ a = b \/ lex_lt b a.
Proof.
  destruct (str_ltb a b) eqn:L; [left; now apply str_ltb_lex|].
  destruct (str_ltb b a) eqn:G; [right; right; now apply str_ltb_lex|].
  right; left.
  revert b L G; induction a as [|x a IH]; intros [|y b]; simpl; intros L G;
    try discriminate; try reflexivity.
  destruct (nat_of_ascii x <? nat_of_ascii y) eqn:L1; [discriminate|].
  destruct (nat_of_ascii y <? nat_of_ascii x) eqn:G1; [discriminate|].
  apply Nat.ltb_ge in L1. apply Nat.ltb_ge in G1.
  assert (x = y) by (apply nat_of_ascii_inj; lia). subst y.
  f_equal. now apply IH.
Qed.

Lemma str_leb_lex a b : str_leb a b = true <-> lex_le a b.
Proof.
  rewrite str_leb_ltb, negb_true_iff. unfold lex_le. split.
  - intros H. destruct (lex_total a b) as [L|[E|G]]; auto.
    apply str_ltb_lex in G. congruence.
  - intros [L|E].
    + destruct (str_ltb b a) eqn:G; [|reflexivity].
      apply str_ltb_lex in G. now apply lex_lt_asym in L.
    + subst. destruct (str_ltb b b) eqn:G; [|reflexivity].
      apply str_ltb_lex in G. now apply lex_lt_irrefl in G.
Qed.

Lemma dark_window_test start end_ now :
  (if str_ltb start end_
   then str_leb start now && str_ltb now end_
   else str_geb now start || str_ltb now end_) = true
  <-> dark_window start end_ now.
Proof.
  unfold dark_window, str_geb.
  destruct (str_ltb start end_) eqn:L.
  - apply str_ltb_lex in L.
    rewrite andb_true_iff, str_leb_lex, str_ltb_lex. split.
    + intros [H1 H2]. left. auto.
    + intros [[_ H]|[[H|H] _]]; [exact H | |].
      * now apply lex_lt_asym in L.
      * subst. now apply lex_lt_irrefl in L.
  - rewrite orb_true_iff, str_leb_lex, str_ltb_lex. split.
    + intros H. right. split; [|exact H].
      apply str_leb_lex. rewrite str_leb_ltb, L. reflexivity.
    + intros [[H _]|[_ H]]; [|exact H].
      apply str_ltb_lex in H. congruence.
Qed.

(** On times of day the lexical order is the order of the clock. *)
Lemma hhmm_lex_clock a b ma mb :
  hhmm_minutes a = Some ma -> hhmm_minutes b = Some mb ->
  (lex_lt a b <-> ma < mb).
Proof.
  unfold hhmm_minutes.
  destruct a as [|a1 [|a2 [|a3 [|a4 [|a5 [|? ?]]]]]]; try discriminate.
  destruct b as [|b1 [|b2 [|b3 [|b4 [|b5 [|? ?]]]]]]; try discriminate.
  destruct (is_digit a1 && is_digit a2 && chr_eqb a3 colon && is_digit a4
            && is_digit a5 && _ && _) eqn:Ea; [|discriminate].
  destruct (is_digit b1 && is_digit b2 && chr_eqb b3 colon && is_digit b4
            && is_digit b5 && _ && _) eqn:Eb; [|discriminate].
  intros [= <-] [= <-].
  repeat (apply andb_true_iff in Ea; destruct Ea as [Ea ?]).
  repeat (apply andb_true_iff in Eb; destruct Eb as [Eb ?]).
  unfold is_digit in *.
  repeat match goal with
         | H : (_ && _) = true |- _ => apply andb_true_iff in H; destruct H
         | H : (_ <=? _) = true |- _ => apply Nat.leb_le in H
         | H : (_ <? _) = true |- _ => apply Nat.ltb_lt in H
         | H : chr_eqb _ _ = true |- _ => apply chr_eqb_eq in H; subst
         end.
  rewrite <- str_ltb_lex. unfold digit_val in *.
  cbn [str_ltb]. rewrite Nat.ltb_irrefl.
  repeat match goal with
         | |- context [?x <? ?y] => destruct (Nat.ltb_spec x y)
         end; split; intros; try discriminate; try reflexivity; try lia.
Qed.

Lemma hhmm_lex_le_clock a b ma mb :
  hhmm_minutes a = Some ma -> hhmm_minutes b = Some mb ->
  (lex_le a b <-> ma <= mb).
Proof.
  intros Ha Hb. unfold lex_le. split.
  - intros [H | ->].
    + apply (hhmm_lex_clock a b ma mb Ha Hb) in H. lia.
    + assert (ma = mb) by congruence. lia.
  - intros H. destruct (lex_total a b) as [L|[E|G]]; auto.
    apply (hhmm_lex_clock b a mb ma Hb Ha) in G. lia.
Qed.

(** The dark window read on the clock, in minutes since midnight. *)
Lemma dark_window_clock start end_ now ms me mn :
  hhmm_minutes start = Some ms -> hhmm_minutes end_ = Some me ->
  hhmm_minutes now = Some mn ->
  (dark_window start end_ now
   <-> (ms < me /\ ms <= mn < me) \/ (me <= ms /\ (ms <= mn \/ mn < me))).
Proof.
  intros Hs He Hn. unfold dark_window.
  rewrite (hhmm_lex_clock start end_ ms me Hs He).
  rewrite (hhmm_lex_clock now end_ mn me Hn He).
  rewrite (hhmm_lex_le_clock start now ms mn Hs Hn).
  rewrite (hhmm_lex_le_clock end_ start me ms He Hs).
  tauto.
Qed.

(** C1. The dark-time evaluator of the tray application and of the command
    line returns true exactly on the dark window of the specification: for
    [start < end] lexically, iff [start <= now < end]; for [start >= end],
    iff [now >= start] or [now < end]; and a window with [start = end] is
    dark for every [now]. *)
Theorem is_dark_time_dark_window :
  forall (self : App.t) (w : World) (now : str),
    (App.is_dark_time self now = true
     <-> dark_window (dark_start (App.config self))
                     (dark_end (App.config self)) now)
    /\ (fst (Cli.is_dark_time now w) = true
        <-> dark_window (dark_start (load_config w))
                        (dark_end (load_config w)) now)
    /\ (forall t : str, dark_window t t now).
Proof.
  intros self w now. split; [|split].
  - unfold App.is_dark_time. apply dark_window_test.
  - unfold Cli.is_dark_time. simpl fst. apply dark_window_test.
  - intros t. right. split; [now right|].
    destruct (lex_total t now) as [H|[H|H]]; [left; now left | left; now right | now right].
Qed.

(** ** Matching *)

Lemma ci_eqb_eq p c : ci_eqb p c = true <-> lower p = lower c.
Proof. apply chr_eqb_eq. Qed.

Lemma match_lit_spec w s r :
  match_lit w s = Some r
  <-> exists mid, s = mid ++ r /\ map lower mid = map lower w.
Proof.
  revert s; induction w as [|p w IH]; intros s; simpl.
  - split.
    + intros [= ->]. now exists [].
    + intros [mid [-> H]]. now destruct mid.
  - destruct s as [|c s].
    + split; [discriminate|]. intros [[|m mid] [H1 H2]]; discriminate.
    + destruct (ci_eqb p c) eqn:E.
      * apply ci_eqb_eq in E. rewrite IH. split.
        -- intros [mid [-> H]]. exists (c :: mid). simpl. now rewrite E, H.
        -- intros [[|m mid] [H1 H2]]; [discriminate|].
           simpl in *. inversion H1; inversion H2; subst. now exists mid.
      * split; [discriminate|].
        intros [[|m mid] [H1 H2]]; [discriminate|].
        simpl in *. inversion H1; inversion H2; subst.
        assert (ci_eqb p m = true) by (apply ci_eqb_eq; congruence).
        congruence.
Qed.

Lemma match_alt_some ws s r :
  match_alt ws s = Some r -> exists w, In w ws /\ match_lit w s = Some r.
Proof.
  induction ws as [|w ws IH]; simpl; [discriminate|].
  destruct (match_lit w s) eqn:E.
  - intros [= ->]. exists w. auto.
  - intros H. destruct (IH H) as [w' [Hin Hm]]. exists w'. auto.
Qed.

Lemma match_alt_none ws s :
  match_alt ws s = None <-> forall w, In w ws -> match_lit w s = None.
Proof.
  induction ws as [|w ws IH]; simpl.
  - split; [intros _ w [] | reflexivity].
  - destruct (match_lit w s) eqn:E.
    + split; [discriminate|]. intros H. rewrite (H w) in E; [discriminate | auto].
    + rewrite IH. split.
      * intros H w' [<-|Hin]; auto.
      * intros H w' Hin. apply H. auto.
Qed.

Lemma match_alt_in ws w s r :
  In w ws -> match_lit w s = Some r -> exists r', match_alt ws s = Some r'.
Proof.
  intros Hin Hm. destruct (match_alt ws s) eqn:E; [eauto|].
  rewrite match_alt_none in E. rewrite (E w Hin) in Hm. discriminate.
Qed.

Lemma search_alt_occurs ws s : search_alt ws s = true <-> occurs ws s.
Proof.
  unfold occurs. induction s as [|c s IH].
  - simpl. destruct (match_alt ws []) as [l|] eqn:E.
    + split; [intros _|reflexivity].
      apply match_alt_some in E. destruct E as [w [Hin Hm]].
      apply match_lit_spec in Hm. destruct Hm as [mid [H1 H2]].
      exists w, [], mid, l. auto.
    + split; [discriminate|].
      intros [w [pre [mid [post [Hin [H1 H2]]]]]].
      rewrite match_alt_none in E. specialize (E w Hin).
      destruct pre; [|discriminate]. simpl in H1.
      assert (match_lit w [] = Some post)
        by (apply match_lit_spec; exists mid; auto).
      congruence.
  - simpl. destruct (match_alt ws (c :: s)) as [l|] eqn:E.
    + split; [intros _|reflexivity].
      apply match_alt_some in E. destruct E as [w [Hin Hm]].
      apply match_lit_spec in Hm. destruct Hm as [mid [H1 H2]].
      exists w, [], mid, l. auto.
    + rewrite IH. rewrite match_alt_none in E. split.
      * intros [w [pre [mid [post [Hin [H1 H2]]]]]].
        exists w, (c :: pre), mid, post. subst. auto.
      * intros [w [pre [mid [post [Hin [H1 H2]]]]]].
        destruct pre as [|p pre].
        -- simpl in H1. specialize (E w Hin).
           assert (match_lit w (c :: s) = Some post)
             by (apply match_lit_spec; exists mid; auto).
           congruence.
        -- simpl in H1. inversion H1; subst.
           exists w, pre, mid, post. auto.
Qed.

Lemma is_dark_name_contains name :
  is_dark_name name = true
  <-> contains_ci (lit "dark") name \/ contains_ci (lit "black") name
      \/ contains_ci (lit "noir") name.
Proof.
  unfold is_dark_name. rewrite search_alt_occurs. unfold occurs, contains_ci.
  split.
  - intros [w [pre [mid [post [Hin [H1 H2]]]]]].
    simpl in Hin. destruct Hin as [<-|[<-|[<-|[]]]].
    + left. exists pre, mid, post. auto.
    + right; left. exists pre, mid, post. auto.
    + right; right. exists pre, mid, post. auto.
  - intros [H|[H|H]]; destruct H as [pre [mid [post [H1 H2]]]].
    + exists (lit "dark"), pre, mid, post. simpl; auto.
    + exists (lit "black"), pre, mid, post. simpl; auto.
    + exists (lit "noir"), pre, mid, post. simpl; auto.
Qed.

(** C6. The mode classifier is total on strings: it answers dark exactly
    when the name contains "dark", "black" or "noir" at any position,
    ignoring case, and light for every other string, the empty one
    included. *)
Theorem get_current_mode_classifies :
  forall (name : str) (w : World),
    let has_dark_word :=
      contains_ci (lit "dark") name \/ contains_ci (lit "black") name
      \/ contains_ci (lit "noir") name in
    (get_current_mode (Some name) w = Dark <-> has_dark_word)
    /\ (get_current_mode (Some name) w = Light <-> ~ has_dark_word)
    /\ get_current_mode (Some []) w = Light.
Proof.
  intros name w has_dark_word. subst has_dark_word.
  unfold get_current_mode, classify.
  rewrite <- is_dark_name_contains.
  destruct (is_dark_name name); repeat split;
    try discriminate; try congruence; try reflexivity.
Qed.

(** ** Occurrences across a hyphen *)

Lemma lower_idem c : lower (lower c) = lower c.
Proof. destruct c as [[] [] [] [] [] [] [] []]; reflexivity. Qed.

Lemma map_lower_idem s : map lower (map lower s) = map lower s.
Proof.
  induction s as [|c s IH]; simpl; [reflexivity|].
  now rewrite lower_idem, IH.
Qed.

Lemma occurs_lower ws s : occurs ws s -> occurs ws (map lower s).
Proof.
  intros [w [pre [mid [post [Hin [H1 H2]]]]]].
  exists w, (map lower pre), (map lower mid), (map lower post).
  split; [exact Hin|]. split.
  - subst s. now rewrite !map_app.
  - now rewrite map_lower_idem.
Qed.

(** A block that avoids [h] and starts a string cut at [h] lies before the cut. *)
Lemma prefix_before_cut (h : ascii) mid :
  ~ In h mid ->
  forall s1 s2 post, mid ++ post = s1 ++ h :: s2 -> exists post', s1 = mid ++ post'.
Proof.
  induction mid as [|m mid IH]; intros Hh s1 s2 post H.
  - exists s1. reflexivity.
  - destruct s1 as [|c s1]; simpl in H; inversion H; subst.
    + exfalso. apply Hh. now left.
    + destruct (IH (fun X => Hh (or_intror X)) s1 s2 post H2) as [post' ->].
      now exists post'.
Qed.

(** A block that avoids [h] lies wholly on one side of a cut at [h]. *)
Lemma block_avoids_cut (h : ascii) mid :
  ~ In h mid ->
  forall s1 s2 pre post,
    s1 ++ h :: s2 = pre ++ mid ++ post ->
    (exists post', s1 = pre ++ mid ++ post')
    \/ (exists pre', s2 = pre' ++ mid ++ post).
Proof.
  intros Hh s1. induction s1 as [|c s1 IH]; intros s2 pre post H.
  - destruct pre as [|p pre]; simpl in H.
    + destruct mid as [|m mid].
      * left. now exists [].
      * simpl in H. inversion H; subst. exfalso. apply Hh. now left.
    + inversion H; subst. right. now exists pre.
  - destruct pre as [|p pre]; simpl in H.
    + symmetry in H. change (c :: s1 ++ h :: s2) with ((c :: s1) ++ h :: s2) in H.
      destruct (prefix_before_cut h mid Hh _ _ _ H) as [post' ->].
      left. now exists post'.
    + inversion H; subst.
      destruct (IH s2 pre post H2) as [[post' ->]|[pre' ->]].
      * left. now exists post'.
      * right. now exists pre'.
Qed.

Lemma dark_word_no_hyphen w mid :
  In w dark_words -> map lower mid = map lower w -> ~ In hyphen mid.
Proof.
  intros Hin Hm Hh.
  apply (in_map lower) in Hh. rewrite Hm in Hh.
  simpl in Hin. destruct Hin as [<-|[<-|[<-|[]]]]; simpl in Hh;
    repeat (destruct Hh as [Hh|Hh]; [discriminate|]); exact Hh.
Qed.

Lemma occurs_dark_across_hyphen s1 s2 :
  occurs dark_words (s1 ++ hyphen :: s2)
  <-> occurs dark_words s1 \/ occurs dark_words s2.
Proof.
  split.
  - intros [w [pre [mid [post [Hin [H1 H2]]]]]].
    destruct (block_avoids_cut hyphen mid (dark_word_no_hyphen w mid Hin H2) _ _ _ _ H1)
      as [[post' ->]|[pre' ->]].
    + left. exists w, pre, mid, post'. auto.
    + right. exists w, pre', mid, post. auto.
  - intros [[w [pre [mid [post [Hin [H1 H2]]]]]]|[w [pre [mid [post [Hin [H1 H2]]]]]]].
    + exists w, pre, mid, (post ++ hyphen :: s2). subst s1.
      split; [exact Hin|split; [|exact H2]]. now rewrite <- !app_assoc.
    + exists w, (s1 ++ hyphen :: pre), mid, post. subst s2.
      split; [exact Hin|split; [|exact H2]].
      rewrite <- app_assoc. reflexivity.
Qed.

Lemma classify_dark_occurs name : classify name = Dark <-> occurs dark_words name.
Proof.
  unfold classify, is_dark_name. rewrite <- search_alt_occurs.
  destruct (search_alt dark_words name); split; congruence.
Qed.

Lemma classify_light_occurs name :
  classify name = Light <-> ~ occurs dark_words name.
Proof.
  unfold classify, is_dark_name. rewrite <- search_alt_occurs.
  destruct (search_alt dark_words name); split; congruence.
Qed.

Lemma occurs_whole ws w : In (map lower w) ws -> occurs ws w.
Proof.
  intros Hin. exists (map lower w), [], w, [].
  split; [exact Hin|]. split.
  - simpl. now rewrite app_nil_r.
  - now rewrite map_lower_idem.
Qed.

Lemma light_word_not_dark w : map lower w = lit "light" -> ~ occurs dark_words w.
Proof.
  intros Hw H. apply occurs_lower in H. rewrite Hw in H.
  apply search_alt_occurs in H. discriminate.
Qed.

Lemma classify_append_suffix base w :
  In (map lower w) suffix_words ->
  classify (base ++ hyphen :: w)
  = if mem (map lower w) dark_words then Dark else classify base.
Proof.
  intros Hin. simpl in Hin.
  destruct Hin as [E|[E|[E|[E|[]]]]]; rewrite <- E; simpl mem;
    try (apply classify_dark_occurs; apply occurs_dark_across_hyphen; right;
         apply occurs_whole; rewrite <- E; simpl; tauto).
  symmetry in E. pose proof (light_word_not_dark w E) as Hw.
  destruct (classify base) eqn:C.
  - apply classify_light_occurs. rewrite occurs_dark_across_hyphen.
    apply classify_light_occurs in C. tauto.
  - apply classify_dark_occurs. rewrite occurs_dark_across_hyphen.
    apply classify_dark_occurs in C. tauto.
Qed.

(** C5, as the code has it.  Appending a recognized mode suffix to a name
    flips the classification exactly when the name is classified light and
    the suffix is one of -dark, -black, -noir (in any mix of cases); a
    -light suffix never changes the mode, and a dark name stays dark. *)
Theorem classify_suffix_opposite_iff :
  forall base suf : str,
    hyphen_word suffix_words suf ->
    (classify (base ++ suf) = opposite (classify base)
     <-> classify base = Light /\ hyphen_word dark_words suf).
Proof.
  intros base suf [w [-> Hin]].
  rewrite (classify_append_suffix base w Hin).
  destruct (mem (map lower w) dark_words) eqn:M.
  - apply mem_In in M. split.
    + intros H. split; [destruct (classify base); [reflexivity|discriminate]|].
      now exists w.
    + intros [-> _]. reflexivity.
  - split.
    + intros H. destruct (classify base); discriminate.
    + intros [_ [w' [E Hd]]]. inversion E; subst w'.
      apply mem_In in Hd. congruence.
Qed.

(** C5: both hypotheses hold for Adwaita and the suffix -Dark. *)
Lemma classify_suffix_opposite_iff_witness :
  hyphen_word suffix_words (lit "-Dark")
  /\ (classify (lit "Adwaita" ++ lit "-Dark") = opposite (classify (lit "Adwaita"))
      <-> classify (lit "Adwaita") = Light /\ hyphen_word dark_words (lit "-Dark")).
Proof.
  assert (H : hyphen_word suffix_words (lit "-Dark")).
  { exists (lit "Dark"). split; [reflexivity | simpl; auto]. }
  split; [exact H | exact (classify_suffix_opposite_iff (lit "Adwaita") (lit "-Dark") H)].
Defined.

(** C5 fails as stated: Adwaita and Adwaita-light differ only by the
    -light suffix and are both classified light. *)
Lemma classify_light_suffix_same_mode :
  hyphen_word suffix_words (lit "-light")
  /\ classify (lit "Adwaita") = Light
  /\ classify (lit "Adwaita" ++ lit "-light") = Light
  /\ classify (lit "Adwaita" ++ lit "-light") <> opposite (classify (lit "Adwaita")).
Proof.
  split; [|split; [|split]]; try reflexivity; try discriminate.
  exists (lit "light"). split; [reflexivity | simpl; auto].
Qed.

(** ** Base names *)

Lemma lower_hyphen c : lower c = hyphen -> c = hyphen.
Proof.
  intros H. destruct c as [[] [] [] [] [] [] [] []];
    try reflexivity; vm_compute in H; discriminate.
Qed.

Lemma suffix_word_no_hyphen mid :
  In (map lower mid) suffix_words -> ~ In hyphen mid.
Proof.
  intros Hin Hh. apply (in_map lower) in Hh.
  simpl in Hin. destruct Hin as [E|[E|[E|[E|[]]]]]; rewrite <- E in Hh;
    simpl in Hh; repeat (destruct Hh as [Hh|Hh]; [discriminate|]); exact Hh.
Qed.

(** A match of the suffix pattern is a hyphenated mode word. *)
Lemma match_hyphen_alt_token s rest :
  match_hyphen_alt suffix_words s = Some rest ->
  exists tok, hyphen_word suffix_words tok /\ s = tok ++ rest.
Proof.
  unfold match_hyphen_alt. destruct s as [|c s]; [discriminate|].
  destruct (ci_eqb hyphen c) eqn:E; [|discriminate].
  apply ci_eqb_eq in E. symmetry in E. apply lower_hyphen in E. subst c.
  intros H. apply match_alt_some in H. destruct H as [w [Hin Hm]].
  apply match_lit_spec in Hm. destruct Hm as [mid [-> Hmid]].
  exists (hyphen :: mid). split; [|reflexivity].
  exists mid. split; [reflexivity|]. rewrite Hmid.
  simpl in Hin. destruct Hin as [<-|[<-|[<-|[<-|[]]]]]; simpl; auto.
Qed.

(** The other way round: at a hyphenated mode word the pattern matches and
    consumes exactly that word. *)
Lemma match_hyphen_alt_at_token tok rest :
  hyphen_word suffix_words tok ->
  match_hyphen_alt suffix_words (tok ++ rest) = Some rest.
Proof.
  intros [w [-> Hin]]. simpl in Hin.
  destruct Hin as [E|[E|[E|[E|[]]]]];
    repeat (destruct w as [|? w]; try discriminate E);
    simpl in E; inversion E as [E'];
    cbn [app match_hyphen_alt match_alt match_lit suffix_words lit
         list_ascii_of_string];
    unfold ci_eqb;
    repeat match goal with H : _ = lower _ |- _ => rewrite <- H; clear H end;
    reflexivity.
Qed.

Lemma sub_skip ws a b :
  sub_hyphen_alt_from ws (List.length a) (a ++ b) = sub_hyphen_alt_from ws 0 b.
Proof. induction a as [|c a IH]; simpl; [reflexivity | exact IH]. Qed.

Lemma base_name_token tok rest :
  hyphen_word suffix_words tok -> base_name (tok ++ rest) = base_name rest.
Proof.
  intros Htok. pose proof (match_hyphen_alt_at_token tok rest Htok) as Hm.
  destruct Htok as [w [-> _]].
  unfold base_name, sub_hyphen_alt.
  change ((hyphen :: w) ++ rest) with (hyphen :: (w ++ rest)) in *.
  cbn [sub_hyphen_alt_from]. rewrite Hm.
  replace (List.length (w ++ rest) - List.length rest) with (List.length w)
    by (rewrite length_app; lia).
  apply sub_skip.
Qed.

Lemma base_name_no_match c s :
  match_hyphen_alt suffix_words (c :: s) = None ->
  base_name (c :: s) = c :: base_name s.
Proof.
  intros H. unfold base_name, sub_hyphen_alt. cbn [sub_hyphen_alt_from].
  now rewrite H.
Qed.

(** The unfolding of [re.sub]: at a match, resume after it; otherwise keep
    the character and move on. *)
Lemma base_name_unfold s :
  base_name s =
  match s with
  | [] => []
  | c :: s' =>
      match match_hyphen_alt suffix_words s with
      | Some rest => base_name rest
      | None => c :: base_name s'
      end
  end.
Proof.
  destruct s as [|c s]; [reflexivity|].
  destruct (match_hyphen_alt suffix_words (c :: s)) as [rest|] eqn:E.
  - destruct (match_hyphen_alt_token _ _ E) as [tok [Htok Hs]].
    rewrite Hs. now apply base_name_token.
  - now apply base_name_no_match.
Qed.

Lemma base_name_keeps_free pre x :
  (forall p1 c p2, pre = p1 ++ c :: p2 ->
                   match_hyphen_alt suffix_words (c :: p2 ++ x) = None) ->
  base_name (pre ++ x) = pre ++ base_name x.
Proof.
  induction pre as [|c pre IH]; intros H; [reflexivity|].
  simpl. rewrite base_name_no_match.
  - f_equal. apply IH. intros p1 c' p2 E.
    apply (H (c :: p1) c' p2). simpl. now rewrite E.
  - apply (H [] c pre). reflexivity.
Qed.

Lemma suffix_free_no_match pre w rest :
  suffix_free pre ->
  forall p1 c p2, pre = p1 ++ c :: p2 ->
    match_hyphen_alt suffix_words (c :: p2 ++ hyphen :: w ++ rest) = None.
Proof.
  intros Hfree p1 c p2 E.
  destruct (match_hyphen_alt suffix_words (c :: p2 ++ hyphen :: w ++ rest))
    as [r|] eqn:M; [|reflexivity].
  exfalso. destruct (match_hyphen_alt_token _ _ M) as [tok [Htok Hs]].
  pose proof Htok as [mid [-> Hmid]].
  simpl in Hs. inversion Hs as [[Hc Hs']]. symmetry in Hs'.
  destruct (prefix_before_cut hyphen mid (suffix_word_no_hyphen mid Hmid)
              _ _ _ Hs') as [post' ->].
  apply (Hfree p1 (hyphen :: mid) post' Htok). now subst.
Qed.

Lemma suffix_free_no_match_end pre :
  suffix_free pre ->
  forall p1 c p2, pre = p1 ++ c :: p2 ->
    match_hyphen_alt suffix_words (c :: p2 ++ []) = None.
Proof.
  intros Hfree p1 c p2 E. rewrite app_nil_r.
  destruct (match_hyphen_alt suffix_words (c :: p2)) as [r|] eqn:M;
    [|reflexivity].
  exfalso. destruct (match_hyphen_alt_token _ _ M) as [tok [Htok Hs]].
  apply (Hfree p1 tok r Htok). now rewrite E, Hs.
Qed.

(** C2, as the code has it.  The base name drops every hyphenated mode word
    (a hyphen followed by dark, light, black or noir in any mix of cases),
    scanning left to right: a stretch free of such words is kept as it is,
    and after a hyphenated mode word the removal goes on with the rest of
    the name. *)
Theorem base_name_strips_every_suffix :
  forall pre tok rest : str,
    suffix_free pre ->
    hyphen_word suffix_words tok ->
    base_name pre = pre
    /\ base_name (pre ++ tok ++ rest) = pre ++ base_name rest.
Proof.
  intros pre tok rest Hfree Htok. split.
  - rewrite <- (app_nil_r pre) at 1.
    rewrite (base_name_keeps_free pre []); [now rewrite app_nil_r|].
    apply suffix_free_no_match_end. exact Hfree.
  - rewrite base_name_keeps_free.
    + f_equal. now apply base_name_token.
    + destruct Htok as [w [-> _]]. simpl.
      apply suffix_free_no_match. exact Hfree.
Qed.

Lemma no_hyphen_suffix_free s : ~ In hyphen s -> suffix_free s.
Proof.
  intros Hh pre tok post [w [-> _]] E. apply Hh. rewrite E.
  apply in_or_app. right. now left.
Qed.

(** C2: the hypotheses hold for Foo followed by -Dark and -light. *)
Lemma base_name_strips_every_suffix_witness :
  suffix_free (lit "Foo")
  /\ hyphen_word suffix_words (lit "-Dark")
  /\ base_name (lit "Foo") = lit "Foo"
  /\ base_name (lit "Foo" ++ lit "-Dark" ++ lit "-light")
     = lit "Foo" ++ base_name (lit "-light").
Proof.
  assert (H1 : suffix_free (lit "Foo")).
  { apply no_hyphen_suffix_free. simpl.
    intros H; repeat (destruct H as [H|H]; [discriminate|]); exact H. }
  assert (H2 : hyphen_word suffix_words (lit "-Dark")).
  { exists (lit "Dark"). split; [reflexivity | simpl; auto]. }
  split; [exact H1 | split; [exact H2|]].
  exact (base_name_strips_every_suffix (lit "Foo") (lit "-Dark") (lit "-light") H1 H2).
Defined.

(** C2 fails as stated: with two hyphenated mode words in the name, both
    are removed and the second one is not kept. *)
Lemma base_name_removes_second_suffix :
  base_name (lit "Foo-dark-light") = lit "Foo"
  /\ base_name (lit "Foo-dark-light") <> lit "Foo-light".
Proof. split; [reflexivity | discriminate]. Qed.

(** A mode word that no hyphen precedes is not a suffix for the base name. *)
Example base_name_darkwood : base_name (lit "Darkwood") = lit "Darkwood".
Proof. reflexivity. Qed.

(** ** Duplicate names across search paths *)

(** C4: a name present in two search paths is listed twice in its family,
    and the key of the pairing table repeats it; [list_all_themes], which
    collects into a set, lists it once. *)
Theorem generate_theme_map_repeats_shared_name :
  generate_theme_map dirs_with_shared_name
  = [ (lit "Adwaita,Adwaita", lit "Adwaita-dark");
      (lit "Adwaita-dark", lit "Adwaita,Adwaita") ]
  /\ theme_groups dirs_with_shared_name
     = [ (lit "Adwaita", [lit "Adwaita"; lit "Adwaita-dark"; lit "Adwaita"]) ]
  /\ list_all_themes dirs_with_shared_name = [lit "Adwaita"; lit "Adwaita-dark"].
Proof. repeat split; reflexivity. Qed.

(** ** Setting the dark interval *)

(** C3: the interval 25:99-05:00 passes the format check, is stored as the
    new window and written to the settings file; no failure is reported. *)
Theorem set_dark_interval_accepts_out_of_range :
  let result :=
    App.set_dark_interval app_greybird (App.Entered (lit "25:99-05:00"))
                          world_greybird in
  dark_start (App.config (fst result)) = lit "25:99"
  /\ dark_end (App.config (fst result)) = lit "05:00"
  /\ config_file (snd result) = Some (App.config (fst result))
  /\ trace (snd result) = [MenuRebuilt (lit "Set Dark Interval (25:99-05:00)")].
Proof. repeat split; reflexivity. Qed.

(** An entry that does not have the shape DD:DD-DD:DD changes nothing and is
    answered with the format message. *)
Lemma set_dark_interval_rejects_bad_shape self stdout w :
  match_interval (strip stdout) = false ->
  App.set_dark_interval self (App.Entered stdout) w
  = (self, print (lit "Invalid time format. Use HH:MM-HH:MM") w).
Proof. intros H. unfold App.set_dark_interval. now rewrite H. Qed.

Example set_dark_interval_no_colons :
  App.set_dark_interval app_greybird (App.Entered (lit "1900-0500")) world_greybird
  = (app_greybird,
     print (lit "Invalid time format. Use HH:MM-HH:MM") world_greybird).
Proof. reflexivity. Qed.

(** ** Toggling without a counterpart *)

Lemma no_counterpart_find theme_name theme_map :
  no_counterpart theme_name theme_map ->
  find_counterpart_theme theme_name theme_map = None.
Proof.
  induction theme_map as [|[key value] rest IH]; intros H; [reflexivity|].
  simpl. destruct (H key value (or_introl eq_refl)) as [Hk Hv].
  destruct (mem theme_name (split_on comma key)) eqn:Mk;
    [apply mem_In in Mk; contradiction|].
  destruct (mem theme_name (split_on comma value)) eqn:Mv;
    [apply mem_In in Mv; contradiction|].
  apply IH. intros k v Hin. apply H. now right.
Qed.

Lemma same_state_refl w : same_state w w.
Proof. repeat split. Qed.

Lemma same_state_print line w w' : same_state w w' -> same_state w (print line w').
Proof. intros H. exact H. Qed.

Lemma same_state_list_themes w w' :
  same_state w w' -> same_state w (Cli.list_themes w').
Proof.
  intros H. unfold Cli.list_themes.
  assert (F : forall (l : Dict str) w1, same_state w w1 ->
            same_state w
              (fold_left
                 (fun w kv =>
                    if search_alt [lit "dark"] (fst kv) then w
                    else print (repeat hyphen 30)
                           (print (lit "Dark:  " ++ snd kv)
                              (print (lit "Light: " ++ fst kv) w)))
                 l w1)).
  { induction l as [|kv l IH]; intros w1 H1; [exact H1|].
    cbn [fold_left]. apply IH.
    match goal with |- context [if ?b then _ else _] => destruct b end;
      exact H1. }
  destruct (generate_theme_map (theme_dirs w')) eqn:G; [exact H|].
  apply F. exact H.
Qed.

Lemma list_themes_keeps_trace e w :
  In e (trace w) -> In e (trace (Cli.list_themes w)).
Proof.
  intros H. unfold Cli.list_themes.
  assert (K : forall line w1, In e (trace w1) -> In e (trace (print line w1))).
  { intros line w1 H1. simpl. apply in_or_app. now left. }
  assert (F : forall (l : Dict str) w1, In e (trace w1) ->
            In e (trace
              (fold_left
                 (fun w kv =>
                    if search_alt [lit "dark"] (fst kv) then w
                    else print (repeat hyphen 30)
                           (print (lit "Dark:  " ++ snd kv)
                              (print (lit "Light: " ++ fst kv) w)))
                 l w1))).
  { induction l as [|kv l IH]; intros w1 H1; [exact H1|].
    cbn [fold_left]. apply IH.
    match goal with |- context [if ?b then _ else _] => destruct b end;
      [exact H1|].
    now apply K, K, K. }
  destruct (generate_theme_map (theme_dirs w)) eqn:G; [now apply K|].
  apply F. now apply K, K.
Qed.

Lemma same_state_current_theme w w' :
  same_state w w' -> get_current_theme w' = get_current_theme w.
Proof.
  intros [_ [H _]]. unfold get_current_theme, xfconf_query_get. now rewrite H.
Qed.

(** C9. When the current theme is on neither side of any entry of the
    pairing table, toggling reports that no counterpart was found and
    changes nothing: no xfconf property is written, so the active theme is
    the same afterwards.  This holds for the tray application (with the
    table built at start-up) and for the command line (which rebuilds the
    table from the theme directories). *)
Theorem toggle_theme_no_counterpart :
  forall (self : App.t) (w : World),
    (no_counterpart (get_current_theme w) (App.theme_map self) ->
     App.toggle_theme self w
     = print (lit "[Toggle] No counterpart found for " ++ get_current_theme w) w
     /\ same_state w (App.toggle_theme self w)
     /\ get_current_theme (App.toggle_theme self w) = get_current_theme w)
    /\ (no_counterpart (get_current_theme w) (generate_theme_map (theme_dirs w)) ->
        In (Printed (lit "No counterpart found for " ++ get_current_theme w))
           (trace (Cli.toggle_theme w))
        /\ same_state w (Cli.toggle_theme w)
        /\ get_current_theme (Cli.toggle_theme w) = get_current_theme w).
Proof.
  intros self w. split; intros H.
  - assert (E : App.toggle_theme self w
              = print (lit "[Toggle] No counterpart found for "
                       ++ get_current_theme w) w).
    { unfold App.toggle_theme. now rewrite (no_counterpart_find _ _ H). }
    rewrite E. split; [reflexivity|]. split.
    + apply same_state_print, same_state_refl.
    + apply same_state_current_theme, same_state_print, same_state_refl.
  - assert (E : Cli.toggle_theme w
              = Cli.list_themes
                  (print (lit "Available themes:")
                     (print (lit "No counterpart found for "
                             ++ get_current_theme w) w))).
    { unfold Cli.toggle_theme. now rewrite (no_counterpart_find _ _ H). }
    assert (S : same_state w (Cli.toggle_theme w)).
    { rewrite E. apply same_state_list_themes.
      apply same_state_print, same_state_print, same_state_refl. }
    split; [|split; [exact S | now apply same_state_current_theme]].
    rewrite E. apply list_themes_keeps_trace. simpl.
    apply in_or_app. left. apply in_or_app. right. now left.
Qed.

Lemma find_none_no_counterpart theme_name theme_map :
  find_counterpart_theme theme_name theme_map = None ->
  no_counterpart theme_name theme_map.
Proof.
  induction theme_map as [|[key value] rest IH]; intros H k v Hin;
    [destruct Hin|].
  simpl in H.
  destruct (mem theme_name (split_on comma key)) eqn:Mk; [discriminate|].
  destruct (mem theme_name (split_on comma value)) eqn:Mv; [discriminate|].
  destruct Hin as [E|Hin].
  - inversion E; subst. split; intros X; apply mem_In in X; congruence.
  - now apply IH.
Qed.

(** C9: Greybird has no sibling among the installed themes. *)
Lemma toggle_theme_no_counterpart_witness :
  (no_counterpart (get_current_theme world_greybird) (App.theme_map app_greybird)
   /\ App.toggle_theme app_greybird world_greybird
      = print (lit "[Toggle] No counterpart found for "
               ++ get_current_theme world_greybird) world_greybird
   /\ same_state world_greybird (App.toggle_theme app_greybird world_greybird)
   /\ get_current_theme (App.toggle_theme app_greybird world_greybird)
      = get_current_theme world_greybird)
  /\ (no_counterpart (get_current_theme world_greybird)
                     (generate_theme_map (theme_dirs world_greybird))
      /\ In (Printed (lit "No counterpart found for "
                      ++ get_current_theme world_greybird))
            (trace (Cli.toggle_theme world_greybird))
      /\ same_state world_greybird (Cli.toggle_theme world_greybird)
      /\ get_current_theme (Cli.toggle_theme world_greybird)
         = get_current_theme world_greybird).
Proof.
  assert (H : no_counterpart (get_current_theme world_greybird)
                (generate_theme_map (theme_dirs world_greybird))).
  { apply find_none_no_counterpart. reflexivity. }
  destruct (toggle_theme_no_counterpart app_greybird world_greybird) as [HA HC].
  split; split; [exact H | exact (HA H) | exact H | exact (HC H)].
Defined.

(** ** Dictionaries *)

Section DictFacts.

Context {V : Type}.
Implicit Types (d : Dict V) (k : str) (v : V).

Lemma dict_get_In d k v : dict_get d k = Some v -> In (k, v) d.
Proof.
  induction d as [|[k' v'] d IH]; simpl; [discriminate|].
  destruct (str_eqb k' k) eqn:E.
  - apply str_eqb_eq in E. intros [= ->]. left. now subst.
  - intros H. right. now apply IH.
Qed.

Lemma dict_get_set_same d k v : dict_get (dict_set d k v) k = Some v.
Proof.
  induction d as [|[k' v'] d IH]; simpl.
  - now rewrite str_eqb_refl.
  - destruct (str_eqb k' k) eqn:E; simpl; rewrite E; [reflexivity | exact IH].
Qed.

Lemma dict_get_set_other d k v k' :
  k <> k' -> dict_get (dict_set d k v) k' = dict_get d k'.
Proof.
  intros N. induction d as [|[k0 v0] d IH]; simpl.
  - apply str_eqb_neq in N. now rewrite N.
  - destruct (str_eqb k0 k) eqn:E; simpl.
    + apply str_eqb_eq in E. subst k0. apply str_eqb_neq in N. now rewrite N.
    + destruct (str_eqb k0 k'); [reflexivity | exact IH].
Qed.

Lemma dict_set_In d k v k' v' :
  In (k', v') (dict_set d k v) -> (k' = k /\ v' = v) \/ In (k', v') d.
Proof.
  induction d as [|[k0 v0] d IH]; simpl.
  - intros [[= <- <-]|[]]. now left.
  - destruct (str_eqb k0 k) eqn:E; simpl.
    + apply str_eqb_eq in E. subst k0.
      intros [[= <- <-]|H]; [now left | right; now right].
    + intros [H|H]; [right; now left|].
      destruct (IH H) as [H'|H']; [now left | right; now right].
Qed.

Lemma dict_set_keys d k v k' :
  In k' (map fst (dict_set d k v)) <-> k' = k \/ In k' (map fst d).
Proof.
  induction d as [|[k0 v0] d IH]; simpl.
  - split; [intros [<-|[]]; now left | intros [->|[]]; now left].
  - destruct (str_eqb k0 k) eqn:E; simpl.
    + apply str_eqb_eq in E. subst k0. intuition congruence.
    + rewrite IH. intuition congruence.
Qed.

Lemma dict_set_NoDup d k v :
  NoDup (map fst d) -> NoDup (map fst (dict_set d k v)).
Proof.
  induction d as [|[k0 v0] d IH]; simpl; intros H.
  - constructor; [intros [] | constructor].
  - inversion H as [|? ? Hn Hd]; subst.
    destruct (str_eqb k0 k) eqn:E; simpl.
    + now constructor.
    + constructor; [|now apply IH].
      rewrite dict_set_keys. intros [->|X]; [|contradiction].
      rewrite str_eqb_refl in E. discriminate.
Qed.

Lemma dict_In_get d k v :
  NoDup (map fst d) -> In (k, v) d -> dict_get d k = Some v.
Proof.
  induction d as [|[k0 v0] d IH]; simpl; intros Hn Hin; [destruct Hin|].
  inversion Hn as [|? ? Hk Hd]; subst.
  destruct Hin as [[= -> ->]|Hin].
  - now rewrite str_eqb_refl.
  - destruct (str_eqb k0 k) eqn:E; [|now apply IH].
    apply str_eqb_eq in E. subst k0. exfalso. apply Hk.
    change k with (fst (k, v)). now apply in_map.
Qed.

Lemma dict_get_key d k : dict_get d k <> None <-> In k (map fst d).
Proof.
  induction d as [|[k0 v0] d IH]; simpl.
  - split; [intros H; now apply H | intros []].
  - destruct (str_eqb k0 k) eqn:E.
    + apply str_eqb_eq in E. split; [now left | discriminate].
    + rewrite IH. apply str_eqb_neq in E.
      split; [now right | intros [X|X]; [contradiction | exact X]].
Qed.

End DictFacts.

(** ** Families *)

Lemma nonempty_filter {A} (p : A -> bool) l :
  nonempty (filter p l) = true <-> exists x, In x l /\ p x = true.
Proof.
  induction l as [|a l IH]; simpl.
  - split; [discriminate | intros [x [[] _]]].
  - destruct (p a) eqn:E; simpl.
    + split; [intros _; exists a; auto | reflexivity].
    + rewrite IH. split.
      * intros [x [H1 H2]]. exists x. auto.
      * intros [x [[->|H1] H2]]; [congruence | exists x; auto].
Qed.

Lemma nonempty_dark themes :
  nonempty (dark_variants themes) = true <-> has_mode Dark themes.
Proof.
  unfold dark_variants, has_mode. rewrite nonempty_filter.
  split; intros [x [H1 H2]]; exists x; split; auto; unfold classify in *;
    destruct (is_dark_name x); congruence.
Qed.

Lemma nonempty_light themes :
  nonempty (light_variants themes) = true <-> has_mode Light themes.
Proof.
  unfold light_variants, has_mode. rewrite nonempty_filter.
  split; intros [x [H1 H2]]; exists x; split; auto; unfold classify in *;
    destruct (is_dark_name x); simpl in *; congruence.
Qed.

Section Families.

(** A property every scanned directory name enjoys. *)
Variable P : str -> Prop.

Lemma groups_append_ok g name :
  groups_ok P g -> P name -> groups_ok P (groups_append g (base_name name) name).
Proof.
  intros [Hn Hf] Hp. unfold groups_append.
  destruct (dict_get g (base_name name)) as [members|] eqn:E;
    (split; [now apply dict_set_NoDup|]); intros [b ms] Hin;
    apply dict_set_In in Hin; destruct Hin as [[-> ->]|Hin]; auto.
  - apply dict_get_In in E. destruct (Hf _ E) as [_ Hm]. split; simpl.
    + now destruct members.
    + intros x Hx. apply in_app_or in Hx. destruct Hx as [Hx|[<-|[]]]; auto.
  - split; simpl; [discriminate|]. intros x [<-|[]]. auto.
Qed.

Lemma scan_entries_ok entries :
  (forall e, In e entries -> entry_is_dir e = true -> P (entry_name e)) ->
  forall g, groups_ok P g -> groups_ok P (scan_entries g entries).
Proof.
  unfold scan_entries.
  induction entries as [|e entries IH]; intros Hp g Hg; [exact Hg|].
  cbn [fold_left]. apply IH; [intros e' He'; apply Hp; now right|].
  destruct (entry_is_dir e) eqn:D; [|exact Hg].
  apply groups_append_ok; [exact Hg | apply Hp; [now left | exact D]].
Qed.

Lemma theme_groups_ok dirs :
  (forall entries e, In (Some entries) dirs -> In e entries ->
                     entry_is_dir e = true -> P (entry_name e)) ->
  groups_ok P (theme_groups dirs).
Proof.
  unfold theme_groups.
  assert (G0 : groups_ok P []).
  { split; [constructor | intros f []]. }
  revert G0. generalize (@nil (str * list str)) as g.
  induction dirs as [|d dirs IH]; intros g Hg Hp; [exact Hg|].
  cbn [fold_left]. apply IH.
  - destruct d as [entries|]; [|exact Hg]. simpl.
    apply scan_entries_ok; [|exact Hg].
    intros e He. apply (Hp entries e); [now left | exact He].
  - intros entries e Hin He. apply (Hp entries e); [now right | exact He].
Qed.

End Families.

(** ** Entries of the pairing table *)

Lemma add_family_one_mode mapping family :
  ~ (has_mode Light (snd family) /\ has_mode Dark (snd family)) ->
  add_family mapping family = mapping.
Proof.
  intros H. unfold add_family.
  destruct (nonempty (light_variants (snd family))) eqn:L;
    destruct (nonempty (dark_variants (snd family))) eqn:D; try reflexivity.
  exfalso. apply H. split; [now apply nonempty_light | now apply nonempty_dark].
Qed.

Lemma add_family_In mapping family k v :
  In (k, v) (add_family mapping family) ->
  In (k, v) mapping \/ family_entry (snd family) k v.
Proof.
  unfold add_family, family_entry.
  destruct (nonempty (light_variants (snd family))) eqn:L;
    destruct (nonempty (dark_variants (snd family))) eqn:D; simpl; auto.
  apply nonempty_light in L. apply nonempty_dark in D.
  intros H. apply dict_set_In in H. destruct H as [[-> ->]|H]; [now auto 6|].
  apply dict_set_In in H. destruct H as [[-> ->]|H]; [now auto 6 | now left].
Qed.

Lemma add_family_keeps_keys mapping family k :
  In k (map fst mapping) -> In k (map fst (add_family mapping family)).
Proof.
  intros H. unfold add_family.
  destruct (nonempty (light_variants (snd family))
            && nonempty (dark_variants (snd family))); [|exact H].
  apply dict_set_keys. right. apply dict_set_keys. now right.
Qed.

Lemma add_family_keys mapping family :
  has_mode Light (snd family) -> has_mode Dark (snd family) ->
  In (light_str (snd family)) (map fst (add_family mapping family))
  /\ In (dark_str (snd family)) (map fst (add_family mapping family)).
Proof.
  intros L D. unfold add_family.
  apply nonempty_light in L. apply nonempty_dark in D. rewrite L, D. simpl.
  split; apply dict_set_keys; [right; apply dict_set_keys|]; now left.
Qed.

Lemma add_family_NoDup mapping family :
  NoDup (map fst mapping) -> NoDup (map fst (add_family mapping family)).
Proof.
  intros H. unfold add_family.
  destruct (nonempty (light_variants (snd family))
            && nonempty (dark_variants (snd family))); [|exact H].
  now apply dict_set_NoDup, dict_set_NoDup.
Qed.

Lemma fold_add_family_In groups : forall mapping k v,
  In (k, v) (fold_left add_family groups mapping) ->
  In (k, v) mapping
  \/ exists family, In family groups /\ family_entry (snd family) k v.
Proof.
  induction groups as [|f groups IH]; intros mapping k v H; [now left|].
  cbn [fold_left] in H. destruct (IH _ _ _ H) as [H1|[g [Hg He]]].
  - destruct (add_family_In _ _ _ _ H1) as [H2|H2]; [now left|].
    right. exists f. split; [now left | exact H2].
  - right. exists g. split; [now right | exact He].
Qed.

Lemma fold_add_family_keeps_keys groups : forall mapping k,
  In k (map fst mapping) -> In k (map fst (fold_left add_family groups mapping)).
Proof.
  induction groups as [|f groups IH]; intros mapping k H; [exact H|].
  cbn [fold_left]. apply IH. now apply add_family_keeps_keys.
Qed.

Lemma fold_add_family_keys groups : forall mapping family,
  In family groups ->
  has_mode Light (snd family) -> has_mode Dark (snd family) ->
  In (light_str (snd family)) (map fst (fold_left add_family groups mapping))
  /\ In (dark_str (snd family)) (map fst (fold_left add_family groups mapping)).
Proof.
  induction groups as [|f groups IH]; intros mapping family Hin L D;
    [destruct Hin|].
  cbn [fold_left]. destruct Hin as [->|Hin]; [|now apply IH].
  destruct (add_family_keys mapping family L D) as [H1 H2].
  split; now apply fold_add_family_keeps_keys.
Qed.

Lemma fold_add_family_NoDup groups : forall mapping,
  NoDup (map fst mapping) ->
  NoDup (map fst (fold_left add_family groups mapping)).
Proof.
  induction groups as [|f groups IH]; intros mapping H; [exact H|].
  cbn [fold_left]. apply IH. now apply add_family_NoDup.
Qed.

Lemma generate_theme_map_NoDup dirs : NoDup (map fst (generate_theme_map dirs)).
Proof. apply fold_add_family_NoDup. constructor. Qed.

(** C7. In the table the catalog builder produces, the families that
    contribute are exactly those with a light and a dark member: such a
    family has both of its canonical keys in the table; every entry of the
    table is the light-to-dark or dark-to-light entry of a family with both
    modes; and a family that lacks one mode leaves the table as it was. *)
Theorem generate_theme_map_two_mode_families :
  forall dirs : list ThemeDir,
    (forall base themes,
        In (base, themes) (theme_groups dirs) ->
        has_mode Light themes -> has_mode Dark themes ->
        dict_get (generate_theme_map dirs) (light_str themes) <> None
        /\ dict_get (generate_theme_map dirs) (dark_str themes) <> None)
    /\ (forall k v,
           dict_get (generate_theme_map dirs) k = Some v ->
           exists base themes,
             In (base, themes) (theme_groups dirs) /\ family_entry themes k v)
    /\ (forall mapping base themes,
           ~ (has_mode Light themes /\ has_mode Dark themes) ->
           add_family mapping (base, themes) = mapping).
Proof.
  intros dirs. split; [|split].
  - intros base themes Hin L D. rewrite !dict_get_key.
    exact (fold_add_family_keys (theme_groups dirs) [] (base, themes) Hin L D).
  - intros k v H. apply dict_get_In in H.
    apply fold_add_family_In in H. destruct H as [[]|[[base themes] [Hin He]]].
    exists base, themes. auto.
  - intros mapping base themes H. now apply add_family_one_mode.
Qed.

(** ** Sorting, joining and splitting *)

Lemma insert_sorted_In x y l : In y (insert_sorted x l) <-> y = x \/ In y l.
Proof.
  induction l as [|z l IH]; simpl.
  - intuition congruence.
  - destruct (str_leb x z); simpl; [intuition congruence|].
    rewrite IH. intuition congruence.
Qed.

Lemma sorted_In y l : In y (sorted l) <-> In y l.
Proof.
  induction l as [|x l IH]; simpl; [tauto|].
  rewrite insert_sorted_In, IH. intuition congruence.
Qed.

Lemma sorted_Permutation l : Permutation (sorted l) l.
Proof.
  assert (I : forall x l, Permutation (insert_sorted x l) (x :: l)).
  { intros x l0. induction l0 as [|z l0 IH]; simpl; [reflexivity|].
    destruct (str_leb x z); [reflexivity|].
    rewrite IH. apply perm_swap. }
  induction l as [|x l IH]; simpl; [constructor|].
  rewrite I. now constructor.
Qed.

Lemma split_on_nonempty sep s : split_on sep s <> [].
Proof.
  induction s as [|c s IH]; simpl; [discriminate|].
  destruct (chr_eqb c sep); [discriminate|].
  destruct (split_on sep s); discriminate.
Qed.

Lemma first_In l : l <> [] -> In (first l) l.
Proof. destruct l; [congruence | intros _; now left]. Qed.

Lemma split_comma_free w : comma_free w -> split_on comma w = [w].
Proof.
  induction w as [|c w IH]; intros H; [reflexivity|].
  simpl. destruct (chr_eqb c comma) eqn:E.
  - apply chr_eqb_eq in E. exfalso. apply H. now left.
  - rewrite IH; [reflexivity|]. intros X. apply H. now right.
Qed.

Lemma split_comma_app w rest :
  comma_free w ->
  split_on comma (w ++ comma :: rest) = w :: split_on comma rest.
Proof.
  induction w as [|c w IH]; intros H; simpl.
  - reflexivity.
  - destruct (chr_eqb c comma) eqn:E.
    + apply chr_eqb_eq in E. exfalso. apply H. now left.
    + rewrite IH; [reflexivity|]. intros X. apply H. now right.
Qed.

(** Splitting at commas undoes joining with commas when no member has one. *)
Lemma split_join l :
  l <> [] -> (forall x, In x l -> comma_free x) ->
  split_on comma (join_comma l) = l.
Proof.
  induction l as [|w l IH]; intros Hne Hc; [congruence|].
  destruct l as [|w' l].
  - simpl. apply split_comma_free. apply Hc. now left.
  - change (join_comma (w :: w' :: l)) with (w ++ comma :: join_comma (w' :: l)).
    rewrite split_comma_app by (apply Hc; now left).
    f_equal. apply IH; [discriminate|]. intros x Hx. apply Hc. now right.
Qed.

Lemma nonempty_true {A} (l : list A) : nonempty l = true <-> l <> [].
Proof. destruct l; simpl; split; congruence. Qed.

Lemma sorted_nonempty l : l <> [] -> sorted l <> [].
Proof.
  destruct l as [|x l]; [congruence|]. intros _ E.
  assert (H : In x (sorted (x :: l))) by (apply sorted_In; now left).
  rewrite E in H. destruct H.
Qed.

Section CommaFreeFamilies.

Variable themes : list str.
Hypothesis themes_comma_free : forall x, In x themes -> comma_free x.

Lemma split_light_str :
  has_mode Light themes ->
  split_on comma (light_str themes) = sorted (light_variants themes).
Proof.
  intros H. apply nonempty_light, nonempty_true in H.
  apply split_join; [now apply sorted_nonempty|].
  intros x Hx. apply -> sorted_In in Hx. apply filter_In in Hx.
  apply themes_comma_free, Hx.
Qed.

Lemma split_dark_str :
  has_mode Dark themes ->
  split_on comma (dark_str themes) = sorted (dark_variants themes).
Proof.
  intros H. apply nonempty_dark, nonempty_true in H.
  apply split_join; [now apply sorted_nonempty|].
  intros x Hx. apply -> sorted_In in Hx. apply filter_In in Hx.
  apply themes_comma_free, Hx.
Qed.

Lemma light_str_members t :
  has_mode Light themes ->
  In t (split_on comma (light_str themes)) ->
  In t themes /\ classify t = Light.
Proof.
  intros H Hin. rewrite (split_light_str H) in Hin.
  apply -> sorted_In in Hin. apply filter_In in Hin. destruct Hin as [H1 H2].
  split; [exact H1|]. unfold classify. now destruct (is_dark_name t).
Qed.

Lemma dark_str_members t :
  has_mode Dark themes ->
  In t (split_on comma (dark_str themes)) ->
  In t themes /\ classify t = Dark.
Proof.
  intros H Hin. rewrite (split_dark_str H) in Hin.
  apply -> sorted_In in Hin. apply filter_In in Hin. destruct Hin as [H1 H2].
  split; [exact H1|]. unfold classify. now rewrite H2.
Qed.

End CommaFreeFamilies.

(** ** Counterparts have the opposite mode *)

Lemma family_entry_modes themes k v :
  (forall x, In x themes -> comma_free x) ->
  family_entry themes k v -> entry_modes k v.
Proof.
  intros Hc [L [D [[-> ->]|[-> ->]]]].
  - exists Light. split; intros t Ht.
    + now apply (light_str_members themes Hc t L).
    + now apply (dark_str_members themes Hc t D).
  - exists Dark. split; intros t Ht.
    + now apply (dark_str_members themes Hc t D).
    + now apply (light_str_members themes Hc t L).
Qed.

Lemma find_counterpart_opposite theme_map t c :
  (forall k v, In (k, v) theme_map -> entry_modes k v) ->
  find_counterpart_theme t theme_map = Some c ->
  classify c = opposite (classify t).
Proof.
  induction theme_map as [|[key value] rest IH]; intros H; [discriminate|].
  simpl. destruct (H key value (or_introl eq_refl)) as [m [Hk Hv]].
  destruct (mem t (split_on comma key)) eqn:Mk.
  - apply mem_In in Mk. intros [= <-].
    rewrite (Hk t Mk). apply Hv, first_In, split_on_nonempty.
  - destruct (mem t (split_on comma value)) eqn:Mv.
    + apply mem_In in Mv. intros [= <-].
      rewrite (Hv t Mv), (Hk (first (split_on comma key))).
      * now destruct m.
      * apply first_In, split_on_nonempty.
    + apply IH. intros k v Hin. apply H. now right.
Qed.

Lemma generate_theme_map_entry_modes dirs k v :
  names_comma_free dirs ->
  In (k, v) (generate_theme_map dirs) -> entry_modes k v.
Proof.
  intros Hc Hin. apply fold_add_family_In in Hin.
  destruct Hin as [[]|[[base themes] [Hg He]]].
  destruct (theme_groups_ok comma_free dirs Hc) as [_ Hok].
  apply (family_entry_modes themes); [|exact He].
  intros x Hx. now apply (Hok _ Hg).
Qed.

(** C10, as the code has it.  When no theme name contains a comma, a
    counterpart returned by the lookup in a table the catalog builder
    produced is classified opposite to the theme that was looked up. *)
Theorem find_counterpart_theme_opposite_mode :
  forall (dirs : list ThemeDir) (t c : str),
    names_comma_free dirs ->
    find_counterpart_theme t (generate_theme_map dirs) = Some c ->
    classify c = opposite (classify t).
Proof.
  intros dirs t c Hc. apply find_counterpart_opposite.
  intros k v. now apply generate_theme_map_entry_modes.
Qed.

Lemma dirs_adwaita_comma_free : names_comma_free dirs_adwaita.
Proof.
  intros entries e [H|[H|[]]]; [|discriminate].
  inversion H; subst entries. intros He _.
  repeat (destruct He as [<-|He]; [vm_compute; intros X;
    repeat (destruct X as [X|X]; [discriminate|]); exact X|]).
  destruct He.
Qed.

(** C10: Adwaita among the Adwaita themes is answered with Adwaita-Dark. *)
Lemma find_counterpart_theme_opposite_mode_witness :
  names_comma_free dirs_adwaita
  /\ find_counterpart_theme (lit "Adwaita") (generate_theme_map dirs_adwaita)
     = Some (lit "Adwaita-Dark")
  /\ classify (lit "Adwaita-Dark") = opposite (classify (lit "Adwaita")).
Proof.
  split; [exact dirs_adwaita_comma_free|]. split; [reflexivity|].
  exact (find_counterpart_theme_opposite_mode dirs_adwaita (lit "Adwaita")
           (lit "Adwaita-Dark") dirs_adwaita_comma_free eq_refl).
Defined.

(** C10 fails as stated: with the themes "a,b" and "a,b-dark" installed,
    the key "a,b" splits into "a" and "b", and looking up "a" returns "a",
    which has the same mode. *)
Lemma find_counterpart_theme_same_mode_with_comma :
  generate_theme_map dirs_with_comma_pair
  = [(lit "a,b", lit "a,b-dark"); (lit "a,b-dark", lit "a,b")]
  /\ find_counterpart_theme (lit "a") (generate_theme_map dirs_with_comma_pair)
     = Some (lit "a")
  /\ classify (lit "a") = Light
  /\ classify (lit "a") <> opposite (classify (lit "a")).
Proof. repeat split; try reflexivity; discriminate. Qed.

(** ** Symmetry of the pairing table *)

Section KeysOfFamilies.

Variable themes : list str.
Hypothesis themes_comma_free : forall x, In x themes -> comma_free x.
Hypothesis has_light : has_mode Light themes.
Hypothesis has_dark : has_mode Dark themes.

Lemma family_key_member k :
  family_key themes k -> In (first (split_on comma k)) themes.
Proof.
  intros [->| ->].
  - apply (light_str_members themes themes_comma_free _ has_light).
    apply first_In, split_on_nonempty.
  - apply (dark_str_members themes themes_comma_free _ has_dark).
    apply first_In, split_on_nonempty.
Qed.

Lemma light_str_neq_dark_str : light_str themes <> dark_str themes.
Proof.
  intros E.
  assert (L : classify (first (split_on comma (light_str themes))) = Light).
  { apply (light_str_members themes themes_comma_free _ has_light).
    apply first_In, split_on_nonempty. }
  assert (D : classify (first (split_on comma (dark_str themes))) = Dark).
  { apply (dark_str_members themes themes_comma_free _ has_dark).
    apply first_In, split_on_nonempty. }
  rewrite E in L. congruence.
Qed.

Lemma add_family_lookup mapping base :
  dict_get (add_family mapping (base, themes)) (light_str themes)
  = Some (dark_str themes)
  /\ dict_get (add_family mapping (base, themes)) (dark_str themes)
     = Some (light_str themes).
Proof.
  unfold add_family. simpl snd.
  pose proof has_light as L. pose proof has_dark as D.
  apply nonempty_light in L. apply nonempty_dark in D. rewrite L, D. simpl.
  split.
  - rewrite dict_get_set_other
      by (intros E; symmetry in E; now apply light_str_neq_dark_str).
    apply dict_get_set_same.
  - apply dict_get_set_same.
Qed.

End KeysOfFamilies.

Lemma add_family_other_key mapping family k :
  (has_mode Light (snd family) -> has_mode Dark (snd family) ->
   ~ family_key (snd family) k) ->
  dict_get (add_family mapping family) k = dict_get mapping k.
Proof.
  intros H. unfold add_family.
  destruct (nonempty (light_variants (snd family))) eqn:L;
    destruct (nonempty (dark_variants (snd family))) eqn:D; simpl;
    try reflexivity.
  apply nonempty_light in L. apply nonempty_dark in D.
  specialize (H L D). unfold family_key in H.
  rewrite !dict_get_set_other; [reflexivity | |]; intros E; apply H; auto.
Qed.

Lemma fold_add_family_other_key groups : forall mapping k,
  (forall family, In family groups ->
     has_mode Light (snd family) -> has_mode Dark (snd family) ->
     ~ family_key (snd family) k) ->
  dict_get (fold_left add_family groups mapping) k = dict_get mapping k.
Proof.
  induction groups as [|f groups IH]; intros mapping k H; [reflexivity|].
  cbn [fold_left]. rewrite IH.
  - apply add_family_other_key. apply H. now left.
  - intros g Hg. apply H. now right.
Qed.

(** Two families of a well-formed grouping never share a key. *)
Lemma family_keys_disjoint f g k :
  family_ok comma_free f -> family_ok comma_free g -> fst f <> fst g ->
  has_mode Light (snd f) -> has_mode Dark (snd f) ->
  has_mode Light (snd g) -> has_mode Dark (snd g) ->
  family_key (snd f) k -> ~ family_key (snd g) k.
Proof.
  intros [_ Hf] [_ Hg] N Lf Df Lg Dg Kf Kg.
  apply family_key_member in Kf; [| intros x Hx; now apply Hf | assumption..].
  apply family_key_member in Kg; [| intros x Hx; now apply Hg | assumption..].
  apply N. destruct (Hf _ Kf) as [<- _]. destruct (Hg _ Kg) as [<- _].
  reflexivity.
Qed.

Lemma fold_add_family_lookup groups : forall mapping base themes,
  groups_ok comma_free groups ->
  In (base, themes) groups ->
  has_mode Light themes -> has_mode Dark themes ->
  dict_get (fold_left add_family groups mapping) (light_str themes)
  = Some (dark_str themes)
  /\ dict_get (fold_left add_family groups mapping) (dark_str themes)
     = Some (light_str themes).
Proof.
  induction groups as [|f groups IH]; intros mapping base themes [Hn Hok] Hin L D;
    [destruct Hin|].
  simpl in Hn. inversion Hn as [|? ? Hfresh Hn']; subst.
  cbn [fold_left]. destruct Hin as [->|Hin].
  - assert (Hc : forall x, In x themes -> comma_free x).
    { intros x Hx. now apply (Hok (base, themes) (or_introl eq_refl)). }
    destruct (add_family_lookup themes Hc L D mapping base) as [H1 H2].
    assert (Other : forall k, family_key themes k ->
              forall family, In family groups ->
                has_mode Light (snd family) -> has_mode Dark (snd family) ->
                ~ family_key (snd family) k).
    { intros k Hk g Hg Lg Dg.
      apply (family_keys_disjoint (base, themes) g k); auto.
      - apply Hok. now left.
      - apply Hok. now right.
      - simpl. intros E. apply Hfresh. simpl. rewrite E. apply in_map. exact Hg. }
    split; rewrite fold_add_family_other_key; auto; apply Other;
      [now left | now right].
  - apply (IH _ base); auto. split; [exact Hn'|].
    intros g Hg. apply Hok. now right.
Qed.

(** C8, as the code has it.  When no theme name contains a comma, the
    table the catalog builder produces is symmetric: a key mapped to a
    value has that value as a key mapped back to it, so being the
    counterpart of one another is mutual. *)
Theorem generate_theme_map_symmetric :
  forall (dirs : list ThemeDir) (k v : str),
    names_comma_free dirs ->
    (dict_get (generate_theme_map dirs) k = Some v
     <-> dict_get (generate_theme_map dirs) v = Some k).
Proof.
  assert (Half : forall dirs k v,
            names_comma_free dirs ->
            dict_get (generate_theme_map dirs) k = Some v ->
            dict_get (generate_theme_map dirs) v = Some k).
  { intros dirs k v Hc H. apply dict_get_In, fold_add_family_In in H.
    destruct H as [[]|[[base themes] [Hg [L [D He]]]]]. simpl in He.
    pose proof (theme_groups_ok comma_free dirs Hc) as Hok.
    destruct (fold_add_family_lookup (theme_groups dirs) [] base themes
                Hok Hg L D) as [H1 H2].
    destruct He as [[-> ->]|[-> ->]]; assumption. }
  intros dirs k v Hc. split; now apply Half.
Qed.

(** C8: the Adwaita themes. *)
Lemma generate_theme_map_symmetric_witness :
  names_comma_free dirs_adwaita
  /\ (dict_get (generate_theme_map dirs_adwaita) (lit "Adwaita-Dark")
      = Some (lit "Adwaita,Adwaita-Light")
      <-> dict_get (generate_theme_map dirs_adwaita) (lit "Adwaita,Adwaita-Light")
          = Some (lit "Adwaita-Dark")).
Proof.
  split; [exact dirs_adwaita_comma_free|].
  exact (generate_theme_map_symmetric dirs_adwaita (lit "Adwaita-Dark")
           (lit "Adwaita,Adwaita-Light") dirs_adwaita_comma_free).
Defined.

(** C8 fails as stated: with the themes A, A-light, A-dark, "A,A-light"
    and "A,A-dark" installed, two families share the key "A,A-light"; the
    later one overwrites the entry, and A-dark maps to a key that does not
    map back to it. *)
Lemma generate_theme_map_asymmetric_with_comma :
  generate_theme_map dirs_with_commas
  = [ (lit "A,A-light", lit "A,A-dark");
      (lit "A-dark", lit "A,A-light");
      (lit "A,A-dark", lit "A,A-light") ]
  /\ dict_get (generate_theme_map dirs_with_commas) (lit "A-dark")
     = Some (lit "A,A-light")
  /\ dict_get (generate_theme_map dirs_with_commas) (lit "A,A-light")
     <> Some (lit "A-dark").
Proof. repeat split; try reflexivity; discriminate. Qed.

(** ** The boundary cases of the dark window *)

Example is_dark_time_wrapping_window :
  App.is_dark_time (app_with_window "19:00" "05:00") (lit "19:00") = true
  /\ App.is_dark_time (app_with_window "19:00" "05:00") (lit "05:00") = false
  /\ App.is_dark_time (app_with_window "19:00" "05:00") (lit "04:59") = true
  /\ App.is_dark_time (app_with_window "19:00" "05:00") (lit "12:00") = false.
Proof. repeat split; reflexivity. Qed.

Example is_dark_time_plain_window :
  App.is_dark_time (app_with_window "09:00" "17:00") (lit "09:00") = true
  /\ App.is_dark_time (app_with_window "09:00" "17:00") (lit "17:00") = false
  /\ App.is_dark_time (app_with_window "09:00" "17:00") (lit "08:59") = false.
Proof. repeat split; reflexivity. Qed.

(** ** Every theme is filed under its base name *)

Lemma groups_append_filed_new g base x : filed (groups_append g base x) base x.
Proof.
  unfold filed, groups_append.
  destruct (dict_get g base) as [members|].
  - exists (members ++ [x]). split; [apply dict_get_set_same|].
    apply in_or_app. right. now left.
  - exists [x]. split; [apply dict_get_set_same | now left].
Qed.

Lemma groups_append_filed_old g base x base' x' :
  filed g base x -> filed (groups_append g base' x') base x.
Proof.
  intros [members [Hg Hx]]. unfold filed, groups_append.
  destruct (str_eqb base' base) eqn:E.
  - apply str_eqb_eq in E. subst base'. rewrite Hg.
    exists (members ++ [x']). split; [apply dict_get_set_same|].
    apply in_or_app. now left.
  - apply str_eqb_neq in E. exists members. split; [|exact Hx].
    destruct (dict_get g base'); now rewrite dict_get_set_other.
Qed.

Lemma scan_entries_filed_old entries : forall g base x,
  filed g base x -> filed (scan_entries g entries) base x.
Proof.
  unfold scan_entries.
  induction entries as [|e entries IH]; intros g base x H; [exact H|].
  cbn [fold_left]. apply IH.
  destruct (entry_is_dir e); [now apply groups_append_filed_old | exact H].
Qed.

Lemma scan_entries_filed_new entries : forall g e,
  In e entries -> entry_is_dir e = true ->
  filed (scan_entries g entries) (base_name (entry_name e)) (entry_name e).
Proof.
  induction entries as [|e0 entries IH]; intros g e Hin Hd; [destruct Hin|].
  destruct Hin as [->|Hin].
  - unfold scan_entries. cbn [fold_left]. rewrite Hd.
    apply (scan_entries_filed_old entries). apply groups_append_filed_new.
  - apply (IH _ e Hin Hd).
Qed.

Lemma scan_directories_filed_old dirs : forall g base x,
  filed g base x -> filed (fold_left scan_directory dirs g) base x.
Proof.
  induction dirs as [|d dirs IH]; intros g base x H; [exact H|].
  cbn [fold_left]. apply IH. destruct d as [entries|]; [|exact H].
  now apply scan_entries_filed_old.
Qed.

(** Each scanned theme belongs to the family of its base name, and that is
    the only family it belongs to. *)
Lemma theme_groups_files_every_theme dirs entries e :
  In (Some entries) dirs -> In e entries -> entry_is_dir e = true ->
  filed (theme_groups dirs) (base_name (entry_name e)) (entry_name e)
  /\ (forall base, filed (theme_groups dirs) base (entry_name e) ->
                   base = base_name (entry_name e)).
Proof.
  intros Hd He Hdir. split.
  - unfold theme_groups. generalize (@nil (str * list str)) as g.
    induction dirs as [|d dirs IH]; intros g; [destruct Hd|].
    cbn [fold_left]. destruct Hd as [->|Hd]; [|now apply IH].
    apply scan_directories_filed_old. simpl.
    now apply scan_entries_filed_new.
  - intros base [members [Hg Hx]]. apply dict_get_In in Hg.
    destruct (theme_groups_ok (fun _ => True) dirs) as [_ Hok]; [auto|].
    symmetry. now apply (Hok _ Hg).
Qed.

(** ** Looking up counterparts in a catalog *)

Lemma groups_family_unique (g : Dict (list str)) base themes themes' :
  NoDup (map fst g) -> In (base, themes) g -> In (base, themes') g ->
  themes = themes'.
Proof.
  intros Hn H1 H2.
  apply (dict_In_get g base themes Hn) in H1.
  apply (dict_In_get g base themes' Hn) in H2. congruence.
Qed.

Section LookupInCatalog.

Variable groups : Dict (list str).
Hypothesis groups_wf : groups_ok comma_free groups.

Lemma family_comma_free base themes :
  In (base, themes) groups -> forall x, In x themes -> comma_free x.
Proof.
  intros Hin x Hx. destruct groups_wf as [_ Hok]. now apply (Hok _ Hin).
Qed.

Lemma family_base base themes x :
  In (base, themes) groups -> In x themes -> base_name x = base.
Proof.
  intros Hin Hx. destruct groups_wf as [_ Hok]. now apply (Hok _ Hin).
Qed.

(** A name found on the key side of an entry is a member of the family the
    entry stems from, and the value side lists the other mode. *)
Lemma entry_key_side base themes k v t :
  In (base, themes) groups -> family_entry themes k v ->
  In t (split_on comma k) ->
  In t themes /\ split_on comma v = opposite_side themes t.
Proof.
  intros Hin [L [D He]] Ht.
  pose proof (family_comma_free base themes Hin) as Hc.
  unfold opposite_side. destruct He as [[-> ->]|[-> ->]].
  - destruct (light_str_members themes Hc t L Ht) as [H1 H2].
    rewrite H2. split; [exact H1 | now apply split_dark_str].
  - destruct (dark_str_members themes Hc t D Ht) as [H1 H2].
    rewrite H2. split; [exact H1 | now apply split_light_str].
Qed.

Lemma entry_value_side base themes k v t :
  In (base, themes) groups -> family_entry themes k v ->
  In t (split_on comma v) ->
  In t themes /\ split_on comma k = opposite_side themes t.
Proof.
  intros Hin [L [D He]] Ht.
  apply (entry_key_side base themes v k t Hin); [|exact Ht].
  split; [exact L | split; [exact D | tauto]].
Qed.

Lemma opposite_side_members themes t x :
  In x (opposite_side themes t) ->
  In x themes /\ classify x = opposite (classify t).
Proof.
  unfold opposite_side. intros H. apply -> sorted_In in H.
  destruct (classify t); apply filter_In in H; destruct H as [H1 H2];
    (split; [exact H1|]); unfold classify;
    destruct (is_dark_name x); simpl in *; congruence.
Qed.

(** What a successful lookup returns, and where it comes from. *)
Lemma find_counterpart_in_family theme_map t c :
  table_of_groups groups theme_map ->
  find_counterpart_theme t theme_map = Some c ->
  exists base themes,
    In (base, themes) groups /\ In t themes
    /\ has_mode Light themes /\ has_mode Dark themes
    /\ c = first (opposite_side themes t).
Proof.
  induction theme_map as [|[key value] rest IH]; intros Ht; [discriminate|].
  simpl. destruct (Ht key value (or_introl eq_refl)) as [base [themes [Hin He]]].
  destruct (mem t (split_on comma key)) eqn:Mk.
  - apply mem_In in Mk. intros [= <-].
    destruct (entry_key_side base themes key value t Hin He Mk) as [H1 H2].
    exists base, themes. rewrite H2.
    destruct He as [L [D _]]. auto 6.
  - destruct (mem t (split_on comma value)) eqn:Mv.
    + apply mem_In in Mv. intros [= <-].
      destruct (entry_value_side base themes key value t Hin He Mv) as [H1 H2].
      exists base, themes. rewrite H2.
      destruct He as [L [D _]]. auto 6.
    + apply IH. intros k v Hkv. apply Ht. now right.
Qed.

(** A name listed on either side of some entry is found. *)
Lemma find_counterpart_listed theme_map t k v :
  In (k, v) theme_map ->
  In t (split_on comma k) \/ In t (split_on comma v) ->
  find_counterpart_theme t theme_map <> None.
Proof.
  induction theme_map as [|[key value] rest IH]; intros Hin Ht; [destruct Hin|].
  simpl. destruct (mem t (split_on comma key)) eqn:Mk; [discriminate|].
  destruct (mem t (split_on comma value)) eqn:Mv; [discriminate|].
  destruct Hin as [[= -> ->]|Hin].
  - destruct Ht as [Ht|Ht]; apply mem_In in Ht; congruence.
  - now apply IH.
Qed.

End LookupInCatalog.

Lemma generate_theme_map_table_of_groups dirs :
  table_of_groups (theme_groups dirs) (generate_theme_map dirs).
Proof.
  intros k v Hin. apply fold_add_family_In in Hin.
  destruct Hin as [[]|[[base themes] [Hg He]]]. exists base, themes. auto.
Qed.

(** The lookup of a member of a family with both modes. *)
Lemma find_counterpart_member dirs base themes t :
  names_comma_free dirs ->
  In (base, themes) (theme_groups dirs) -> In t themes ->
  has_mode Light themes -> has_mode Dark themes ->
  find_counterpart_theme t (generate_theme_map dirs)
  = Some (first (opposite_side themes t)).
Proof.
  intros Hc Hin Ht L D.
  pose proof (theme_groups_ok comma_free dirs Hc) as Hok.
  destruct (fold_add_family_lookup (theme_groups dirs) [] base themes
              Hok Hin L D) as [H1 H2].
  destruct (find_counterpart_theme t (generate_theme_map dirs)) as [c|] eqn:F.
  - destruct (find_counterpart_in_family (theme_groups dirs) Hok _ t c
                (generate_theme_map_table_of_groups dirs) F)
      as [base' [themes' [Hin' [Ht' [_ [_ ->]]]]]].
    assert (base' = base).
    { rewrite <- (family_base _ Hok base' themes' t Hin' Ht').
      apply (family_base _ Hok base themes t Hin Ht). }
    subst base'.
    now rewrite (groups_family_unique _ base themes themes' (proj1 Hok) Hin Hin').
  - exfalso.
    assert (Hcf : forall x, In x themes -> comma_free x)
      by (apply (family_comma_free _ Hok base themes Hin)).
    apply dict_get_In in H1.
    apply (find_counterpart_listed (generate_theme_map dirs) t _ _ H1);
      [|exact F].
    rewrite (split_light_str themes Hcf L), (split_dark_str themes Hcf D).
    rewrite !sorted_In. unfold light_variants, dark_variants.
    rewrite !filter_In.
    destruct (is_dark_name t); simpl; [right | left]; auto.
Qed.

Lemma opposite_side_nonempty themes t :
  has_mode Light themes -> has_mode Dark themes -> opposite_side themes t <> [].
Proof.
  intros L D. unfold opposite_side. apply sorted_nonempty.
  destruct (classify t); apply nonempty_true;
    [now apply nonempty_dark | now apply nonempty_light].
Qed.

Lemma first_opposite_side themes t :
  has_mode Light themes -> has_mode Dark themes ->
  In (first (opposite_side themes t)) themes
  /\ classify (first (opposite_side themes t)) = opposite (classify t).
Proof.
  intros L D. apply opposite_side_members, first_In.
  now apply opposite_side_nonempty.
Qed.

Lemma find_counterpart_found dirs t c :
  names_comma_free dirs ->
  find_counterpart_theme t (generate_theme_map dirs) = Some c ->
  exists base themes,
    In (base, themes) (theme_groups dirs) /\ In t themes
    /\ has_mode Light themes /\ has_mode Dark themes
    /\ c = first (opposite_side themes t).
Proof.
  intros Hc F.
  apply (find_counterpart_in_family (theme_groups dirs)
           (theme_groups_ok comma_free dirs Hc) (generate_theme_map dirs) t c
           (generate_theme_map_table_of_groups dirs) F).
Qed.

Lemma dirs_adwaita_family :
  In (lit "Adwaita", [lit "Adwaita"; lit "Adwaita-Light"; lit "Adwaita-Dark"])
     (theme_groups dirs_adwaita).
Proof. left. reflexivity. Qed.

Lemma adwaita_has_light :
  has_mode Light [lit "Adwaita"; lit "Adwaita-Light"; lit "Adwaita-Dark"].
Proof. exists (lit "Adwaita"). split; [now left | reflexivity]. Qed.

Lemma adwaita_has_dark :
  has_mode Dark [lit "Adwaita"; lit "Adwaita-Light"; lit "Adwaita-Dark"].
Proof.
  exists (lit "Adwaita-Dark"). split; [right; right; now left | reflexivity].
Qed.

(** X1. With comma-free theme names, looking up any member of a family that
    has both modes succeeds and returns the first, in sorted order, of the
    family's members of the other mode. *)
Theorem find_counterpart_theme_canonical :
  forall (dirs : list ThemeDir) (base : str) (themes : list str) (t : str),
    names_comma_free dirs ->
    In (base, themes) (theme_groups dirs) -> In t themes ->
    has_mode Light themes -> has_mode Dark themes ->
    find_counterpart_theme t (generate_theme_map dirs)
    = Some (first (sorted (match classify t with
                           | Light => dark_variants themes
                           | Dark => light_variants themes
                           end))).
Proof.
  intros dirs base themes t Hc Hin Ht L D.
  exact (find_counterpart_member dirs base themes t Hc Hin Ht L D).
Qed.

Lemma find_counterpart_theme_canonical_witness :
  find_counterpart_theme (lit "Adwaita-Dark") (generate_theme_map dirs_adwaita)
  = Some (first (sorted
       (match classify (lit "Adwaita-Dark") with
        | Light => dark_variants
                     [lit "Adwaita"; lit "Adwaita-Light"; lit "Adwaita-Dark"]
        | Dark => light_variants
                    [lit "Adwaita"; lit "Adwaita-Light"; lit "Adwaita-Dark"]
        end))).
Proof.
  apply (find_counterpart_theme_canonical dirs_adwaita (lit "Adwaita")).
  - exact dirs_adwaita_comma_free.
  - exact dirs_adwaita_family.
  - right; right; now left.
  - exact adwaita_has_light.
  - exact adwaita_has_dark.
Defined.

(** X2. With comma-free theme names, a counterpart returned by the lookup
    belongs to the family of the theme looked up: both have the same base
    name, and both are members of one family of the grouping. *)
Theorem find_counterpart_theme_same_family :
  forall (dirs : list ThemeDir) (t c : str),
    names_comma_free dirs ->
    find_counterpart_theme t (generate_theme_map dirs) = Some c ->
    base_name c = base_name t
    /\ exists base themes,
         In (base, themes) (theme_groups dirs) /\ In t themes /\ In c themes.
Proof.
  intros dirs t c Hc F.
  destruct (find_counterpart_found dirs t c Hc F)
    as [base [themes [Hin [Ht [L [D ->]]]]]].
  pose proof (theme_groups_ok comma_free dirs Hc) as Hok.
  destruct (first_opposite_side themes t L D) as [Hm _].
  split.
  - rewrite (family_base _ Hok base themes _ Hin Hm).
    now rewrite (family_base _ Hok base themes t Hin Ht).
  - exists base, themes. auto.
Qed.

Lemma find_counterpart_theme_same_family_witness :
  base_name (lit "Adwaita-Dark") = base_name (lit "Adwaita")
  /\ exists base themes,
       In (base, themes) (theme_groups dirs_adwaita)
       /\ In (lit "Adwaita") themes /\ In (lit "Adwaita-Dark") themes.
Proof.
  exact (find_counterpart_theme_same_family dirs_adwaita (lit "Adwaita")
           (lit "Adwaita-Dark") dirs_adwaita_comma_free eq_refl).
Defined.

(** X3. With comma-free theme names, the lookup answers [None] exactly for
    the names that belong to no family with both a light and a dark
    member: names that were not scanned and members of one-mode families. *)
Theorem find_counterpart_theme_none_iff :
  forall (dirs : list ThemeDir) (t : str),
    names_comma_free dirs ->
    (find_counterpart_theme t (generate_theme_map dirs) = None
     <-> forall base themes,
           In (base, themes) (theme_groups dirs) -> In t themes ->
           ~ (has_mode Light themes /\ has_mode Dark themes)).
Proof.
  intros dirs t Hc. split.
  - intros F base themes Hin Ht [L D].
    rewrite (find_counterpart_member dirs base themes t Hc Hin Ht L D) in F.
    discriminate.
  - intros H.
    destruct (find_counterpart_theme t (generate_theme_map dirs)) as [c|] eqn:F;
      [|reflexivity].
    destruct (find_counterpart_found dirs t c Hc F)
      as [base [themes [Hin [Ht [L [D _]]]]]].
    exfalso. apply (H base themes Hin Ht). auto.
Qed.

Lemma find_counterpart_theme_none_iff_witness :
  find_counterpart_theme (lit "Greybird") (generate_theme_map dirs_adwaita) = None
  <-> forall base themes,
        In (base, themes) (theme_groups dirs_adwaita) ->
        In (lit "Greybird") themes ->
        ~ (has_mode Light themes /\ has_mode Dark themes).
Proof.
  exact (find_counterpart_theme_none_iff dirs_adwaita (lit "Greybird")
           dirs_adwaita_comma_free).
Defined.

(** X4. With comma-free theme names, repeated lookups settle on two themes:
    if [t] has the counterpart [c] and [c] has the counterpart [c'], then
    the counterpart of [c'] is [c] again, and [c'] has the mode and the base
    name of [t] (it need not be [t] itself). *)
Theorem find_counterpart_theme_alternates :
  forall (dirs : list ThemeDir) (t c c' : str),
    names_comma_free dirs ->
    find_counterpart_theme t (generate_theme_map dirs) = Some c ->
    find_counterpart_theme c (generate_theme_map dirs) = Some c' ->
    find_counterpart_theme c' (generate_theme_map dirs) = Some c
    /\ classify c' = classify t /\ base_name c' = base_name t.
Proof.
  intros dirs t c c' Hc F1 F2.
  pose proof (theme_groups_ok comma_free dirs Hc) as Hok.
  destruct (find_counterpart_found dirs t c Hc F1)
    as [base [themes [Hin [Ht [L [D E1]]]]]].
  destruct (first_opposite_side themes t L D) as [Hm1 Hc1].
  rewrite <- E1 in Hm1, Hc1.
  rewrite (find_counterpart_member dirs base themes c Hc Hin Hm1 L D) in F2.
  injection F2 as E2.
  destruct (first_opposite_side themes c L D) as [Hm2 Hc2].
  rewrite E2 in Hm2, Hc2.
  assert (Hmode : classify c' = classify t).
  { rewrite Hc2, Hc1. now destruct (classify t). }
  split; [|split; [exact Hmode|]].
  - rewrite (find_counterpart_member dirs base themes c' Hc Hin Hm2 L D).
    rewrite E1. unfold opposite_side. now rewrite Hmode.
  - rewrite (family_base _ Hok base themes c' Hin Hm2).
    now rewrite (family_base _ Hok base themes t Hin Ht).
Qed.

Lemma find_counterpart_theme_alternates_witness :
  find_counterpart_theme (lit "Adwaita") (generate_theme_map dirs_adwaita)
  = Some (lit "Adwaita-Dark")
  /\ classify (lit "Adwaita") = classify (lit "Adwaita-Light")
  /\ base_name (lit "Adwaita") = base_name (lit "Adwaita-Light").
Proof.
  exact (find_counterpart_theme_alternates dirs_adwaita (lit "Adwaita-Light")
           (lit "Adwaita-Dark") (lit "Adwaita") dirs_adwaita_comma_free
           eq_refl eq_refl).
Defined.

(** ** Families and the scanned names *)

Lemma scanned_names_In dirs x :
  In x (scanned_names dirs)
  <-> exists entries e,
        In (Some entries) dirs /\ In e entries
        /\ entry_is_dir e = true /\ entry_name e = x.
Proof.
  unfold scanned_names. rewrite in_flat_map. split.
  - intros [[entries|] [Hd Hx]]; [|destruct Hx].
    apply in_map_iff in Hx. destruct Hx as [e [He Hf]].
    apply filter_In in Hf. destruct Hf as [Hin Hdir].
    exists entries, e. auto.
  - intros [entries [e [Hd [He [Hdir Hn]]]]].
    exists (Some entries). split; [exact Hd|].
    apply in_map_iff. exists e. split; [exact Hn|].
    apply filter_In. auto.
Qed.

Lemma scanned_name_filed dirs x :
  In x (scanned_names dirs) -> filed (theme_groups dirs) (base_name x) x.
Proof.
  intros H. apply scanned_names_In in H.
  destruct H as [entries [e [Hd [He [Hdir <-]]]]].
  now apply (theme_groups_files_every_theme dirs entries e).
Qed.

Lemma filed_In g base x :
  filed g base x -> exists themes, In (base, themes) g /\ In x themes.
Proof.
  intros [members [Hg Hx]]. exists members. split; [|exact Hx].
  now apply dict_get_In.
Qed.

Lemma theme_groups_members_scanned dirs :
  groups_ok (fun x => In x (scanned_names dirs)) (theme_groups dirs).
Proof.
  apply theme_groups_ok. intros entries e Hd He Hdir.
  apply scanned_names_In. exists entries, e. auto.
Qed.

(** X5. Every scanned theme directory belongs to exactly one family, the
    one filed under its base name; families hold scanned names only, are
    never empty, and no base name is filed twice. *)
Theorem theme_groups_partition :
  forall dirs : list ThemeDir,
    (forall x, In x (scanned_names dirs)
               <-> exists base themes,
                     In (base, themes) (theme_groups dirs) /\ In x themes)
    /\ (forall base themes x,
          In (base, themes) (theme_groups dirs) -> In x themes ->
          base = base_name x)
    /\ (forall base themes, In (base, themes) (theme_groups dirs) -> themes <> [])
    /\ NoDup (map fst (theme_groups dirs)).
Proof.
  intros dirs. destruct (theme_groups_members_scanned dirs) as [Hn Hok].
  split; [|split; [|split]].
  - intros x. split.
    + intros H. exists (base_name x).
      apply filed_In. now apply scanned_name_filed.
    + intros [base [themes [Hin Hx]]]. now apply (Hok _ Hin).
  - intros base themes x Hin Hx. symmetry. now apply (Hok _ Hin).
  - intros base themes Hin. apply (Hok _ Hin).
  - exact Hn.
Qed.

Lemma hyphen_word_dark_suffix tok :
  hyphen_word dark_words tok -> hyphen_word suffix_words tok.
Proof.
  intros [w [-> Hin]]. exists w. split; [reflexivity|].
  simpl in *. tauto.
Qed.

Lemma base_name_append_token base tok :
  suffix_free base -> hyphen_word suffix_words tok ->
  base_name (base ++ tok) = base.
Proof.
  intros Hfree Htok.
  rewrite base_name_keeps_free.
  - rewrite <- (app_nil_r tok), (base_name_token tok [] Htok).
    apply app_nil_r.
  - destruct Htok as [w [-> _]]. intros p1 c p2 E.
    rewrite <- (app_nil_r w).
    now apply (suffix_free_no_match base w [] Hfree p1 c p2).
Qed.

Lemma base_name_free base : suffix_free base -> base_name base = base.
Proof.
  intros Hfree. rewrite <- (app_nil_r base) at 1.
  rewrite (base_name_keeps_free base []); [now rewrite app_nil_r|].
  now apply suffix_free_no_match_end.
Qed.

(** X6. The pairing the tool is for: with comma-free theme names, when a
    light theme whose name holds no hyphenated mode word is installed
    together with the same name followed by -dark, -black or -noir (any
    mix of cases), the lookup of the first returns a dark theme and the
    lookup of the second a light theme, both of that family. *)
Theorem theme_paired_with_dark_variant :
  forall (dirs : list ThemeDir) (name tok : str),
    names_comma_free dirs ->
    suffix_free name -> classify name = Light ->
    hyphen_word dark_words tok ->
    In name (scanned_names dirs) -> In (name ++ tok) (scanned_names dirs) ->
    (exists c, find_counterpart_theme name (generate_theme_map dirs) = Some c
               /\ classify c = Dark /\ base_name c = name)
    /\ (exists c, find_counterpart_theme (name ++ tok) (generate_theme_map dirs)
                  = Some c
                  /\ classify c = Light /\ base_name c = name).
Proof.
  intros dirs name tok Hc Hfree Hlight Htok H1 H2.
  pose proof (theme_groups_ok comma_free dirs Hc) as Hok.
  assert (Hd : classify (name ++ tok) = Dark).
  { destruct Htok as [w [-> Hin]].
    rewrite classify_append_suffix by (simpl in *; tauto).
    apply mem_In in Hin. now rewrite Hin. }
  apply scanned_name_filed in H1, H2.
  rewrite (base_name_free name Hfree) in H1.
  rewrite (base_name_append_token name tok Hfree
             (hyphen_word_dark_suffix tok Htok)) in H2.
  destruct H1 as [themes [Hg Hx1]]. destruct H2 as [themes' [Hg' Hx2]].
  assert (themes' = themes) by congruence. subst themes'.
  apply dict_get_In in Hg.
  assert (L : has_mode Light themes) by (exists name; auto).
  assert (D : has_mode Dark themes) by (exists (name ++ tok); auto).
  split.
  - exists (first (opposite_side themes name)).
    destruct (first_opposite_side themes name L D) as [Hm Hmode].
    split; [exact (find_counterpart_member dirs name themes name Hc Hg Hx1 L D)|].
    split; [now rewrite Hmode, Hlight|].
    apply (family_base _ Hok name themes _ Hg Hm).
  - exists (first (opposite_side themes (name ++ tok))).
    destruct (first_opposite_side themes (name ++ tok) L D) as [Hm Hmode].
    split; [exact (find_counterpart_member dirs name themes (name ++ tok)
                     Hc Hg Hx2 L D)|].
    split; [now rewrite Hmode, Hd|].
    apply (family_base _ Hok name themes _ Hg Hm).
Qed.

Lemma adwaita_suffix_free : suffix_free (lit "Adwaita").
Proof.
  apply no_hyphen_suffix_free. simpl.
  intros H; repeat (destruct H as [H|H]; [discriminate|]); exact H.
Qed.

Lemma theme_paired_with_dark_variant_witness :
  (exists c, find_counterpart_theme (lit "Adwaita") (generate_theme_map dirs_adwaita)
             = Some c
             /\ classify c = Dark /\ base_name c = lit "Adwaita")
  /\ (exists c, find_counterpart_theme (lit "Adwaita" ++ lit "-Dark")
                  (generate_theme_map dirs_adwaita) = Some c
                /\ classify c = Light /\ base_name c = lit "Adwaita").
Proof.
  apply (theme_paired_with_dark_variant dirs_adwaita (lit "Adwaita") (lit "-Dark")).
  - exact dirs_adwaita_comma_free.
  - exact adwaita_suffix_free.
  - reflexivity.
  - exists (lit "Dark"). split; [reflexivity | simpl; auto].
  - simpl. auto.
  - simpl. auto.
Defined.

(** ** Order and sorting *)

Lemma lex_lt_trans a b c : lex_lt a b -> lex_lt b c -> lex_lt a c.
Proof.
  intros H; revert c. induction H as [y b|x y a b Hxy|x a b Hab IH];
    intros c Hbc; inversion Hbc; subst.
  - constructor.
  - constructor.
  - constructor. lia.
  - now constructor.
  - now constructor.
  - apply lex_lt_tail. now apply IH.
Qed.

Lemma lex_le_refl a : lex_le a a.
Proof. now right. Qed.

Lemma lex_le_trans a b c : lex_le a b -> lex_le b c -> lex_le a c.
Proof.
  intros [H1| ->] [H2| ->]; try (now left); try (now right).
  left. now apply (lex_lt_trans a b c).
Qed.

Lemma lex_le_antisym a b : lex_le a b -> lex_le b a -> a = b.
Proof.
  intros [H1|H1] [H2|H2]; auto. now apply lex_lt_asym in H1.
Qed.

Lemma str_leb_false a b : str_leb a b = false -> lex_lt b a.
Proof.
  rewrite str_leb_ltb, negb_false_iff. apply str_ltb_lex.
Qed.

Lemma insert_sorted_ascending x l :
  ascending_from l -> ascending_from (insert_sorted x l).
Proof.
  induction l as [|z l IH]; simpl; intros H.
  - split; [intros y []|exact I].
  - destruct H as [Hz Hl]. destruct (str_leb x z) eqn:E.
    + apply str_leb_lex in E. simpl. split; [|split; assumption].
      intros y [<-|Hy]; [exact E|].
      apply (lex_le_trans x z y E). now apply Hz.
    + apply str_leb_false in E. simpl. split; [|now apply IH].
      intros y Hy. apply insert_sorted_In in Hy.
      destruct Hy as [->|Hy]; [now left | now apply Hz].
Qed.

Lemma sorted_ascending l : ascending_from (sorted l).
Proof.
  induction l as [|x l IH]; simpl; [exact I|].
  now apply insert_sorted_ascending.
Qed.

(** Two ascending arrangements of the same names are the same list. *)
Lemma ascending_unique l : forall l',
  Permutation l l' -> ascending_from l -> ascending_from l' -> l = l'.
Proof.
  induction l as [|x l IH]; intros l' Hp H1 H2.
  - apply Permutation_nil in Hp. now subst.
  - destruct l' as [|y l']; [apply Permutation_sym, Permutation_nil in Hp; discriminate|].
    destruct H1 as [Hx Hl]. destruct H2 as [Hy Hl'].
    assert (x = y).
    { assert (Ix : In x (y :: l'))
        by (apply (Permutation_in x Hp); now left).
      assert (Iy : In y (x :: l))
        by (apply (Permutation_in y (Permutation_sym Hp)); now left).
      destruct Ix as [<-|Ix]; [reflexivity|].
      destruct Iy as [<-|Iy]; [reflexivity|].
      apply lex_le_antisym; [now apply Hx | now apply Hy]. }
    subst y. f_equal. apply IH; [|exact Hl|exact Hl'].
    now apply Permutation_cons_inv in Hp.
Qed.

Lemma sorted_of_permutation l l' : Permutation l l' -> sorted l = sorted l'.
Proof.
  intros Hp. apply ascending_unique; [|apply sorted_ascending..].
  rewrite (sorted_Permutation l), (sorted_Permutation l'). exact Hp.
Qed.

Lemma filter_permutation {A} (p : A -> bool) l l' :
  Permutation l l' -> Permutation (filter p l) (filter p l').
Proof.
  induction 1 as [|x l l' Hp IH|x y l|l l' l'' H1 IH1 H2 IH2]; simpl.
  - constructor.
  - destruct (p x); [now constructor | exact IH].
  - destruct (p x), (p y); try reflexivity. apply perm_swap.
  - now transitivity (filter p l').
Qed.

(** ** What a family holds *)

Lemma members_of_append g base' x base :
  members_of (groups_append g base' x) base
  = members_of g base ++ (if str_eqb base' base then [x] else []).
Proof.
  unfold members_of, groups_append.
  destruct (str_eqb base' base) eqn:E.
  - apply str_eqb_eq in E. subst base'.
    destruct (dict_get g base); now rewrite dict_get_set_same.
  - apply str_eqb_neq in E. rewrite app_nil_r.
    destruct (dict_get g base'); now rewrite dict_get_set_other.
Qed.

Lemma members_of_scan_entries entries : forall g base,
  members_of (scan_entries g entries) base
  = members_of g base
    ++ with_base base (map entry_name (filter entry_is_dir entries)).
Proof.
  unfold scan_entries, with_base.
  induction entries as [|e entries IH]; intros g base; simpl.
  - now rewrite app_nil_r.
  - rewrite IH. destruct (entry_is_dir e); [|reflexivity].
    rewrite members_of_append. simpl.
    destruct (str_eqb (base_name (entry_name e)) base);
      now rewrite <- app_assoc.
Qed.

Lemma members_of_scan_directories dirs : forall g base,
  members_of (fold_left scan_directory dirs g) base
  = members_of g base ++ with_base base (scanned_names dirs).
Proof.
  unfold with_base.
  induction dirs as [|d dirs IH]; intros g base; simpl.
  - now rewrite app_nil_r.
  - rewrite IH, filter_app, app_assoc. f_equal.
    destruct d as [entries|]; simpl; [|now rewrite app_nil_r].
    apply members_of_scan_entries.
Qed.

Lemma theme_groups_members dirs base :
  members_of (theme_groups dirs) base = with_base base (scanned_names dirs).
Proof. apply (members_of_scan_directories dirs [] base). Qed.

(** X7. The family filed under a base name lists exactly the scanned
    directory names with that base name, in scan order and as often as
    they were met (a name present in several search paths is listed once
    per path); a base name with no such directory is not filed at all. *)
Theorem theme_groups_lookup :
  forall (dirs : list ThemeDir) (base : str),
    dict_get (theme_groups dirs) base
    = match filter (fun x => str_eqb (base_name x) base) (scanned_names dirs) with
      | [] => None
      | members => Some members
      end.
Proof.
  intros dirs base. pose proof (theme_groups_members dirs base) as H.
  unfold members_of, with_base in H.
  destruct (dict_get (theme_groups dirs) base) as [members|] eqn:E.
  - rewrite <- H. apply dict_get_In in E.
    destruct (theme_groups_ok (fun _ => True) dirs) as [_ Hok]; [auto|].
    destruct (Hok _ E) as [Hne _]. simpl in Hne.
    destruct members; [congruence | reflexivity].
  - now rewrite <- H.
Qed.

(** ** The table does not depend on the scan order *)

Lemma names_comma_free_scanned dirs :
  names_comma_free dirs <-> forall x, In x (scanned_names dirs) -> comma_free x.
Proof.
  split.
  - intros H x Hx. apply scanned_names_In in Hx.
    destruct Hx as [entries [e [Hd [He [Hdir <-]]]]]. now apply (H entries e).
  - intros H entries e Hd He Hdir. apply H, scanned_names_In.
    exists entries, e. auto.
Qed.

Lemma generate_theme_map_lookup_iff dirs k v :
  names_comma_free dirs ->
  (dict_get (generate_theme_map dirs) k = Some v
   <-> exists base themes,
         In (base, themes) (theme_groups dirs) /\ family_entry themes k v).
Proof.
  intros Hc. split.
  - intros H. apply dict_get_In in H.
    now apply generate_theme_map_table_of_groups.
  - intros [base [themes [Hin [L [D He]]]]].
    destruct (fold_add_family_lookup (theme_groups dirs) [] base themes
                (theme_groups_ok comma_free dirs Hc) Hin L D) as [H1 H2].
    destruct He as [[-> ->]|[-> ->]]; assumption.
Qed.

Lemma has_mode_permutation m l l' :
  Permutation l l' -> has_mode m l -> has_mode m l'.
Proof.
  intros Hp [x [Hx Hm]]. exists x. split; [|exact Hm].
  now apply (Permutation_in x Hp).
Qed.

Lemma family_entry_permutation l l' k v :
  Permutation l l' -> family_entry l k v -> family_entry l' k v.
Proof.
  intros Hp [L [D He]].
  assert (El : light_str l' = light_str l).
  { unfold light_str, light_variants. f_equal. symmetry.
    now apply sorted_of_permutation, filter_permutation. }
  assert (Ed : dark_str l' = dark_str l).
  { unfold dark_str, dark_variants. f_equal. symmetry.
    now apply sorted_of_permutation, filter_permutation. }
  split; [now apply (has_mode_permutation Light l l')|].
  split; [now apply (has_mode_permutation Dark l l')|].
  now rewrite El, Ed.
Qed.

Lemma theme_groups_In_members dirs base themes :
  In (base, themes) (theme_groups dirs)
  <-> themes <> [] /\ themes = with_base base (scanned_names dirs).
Proof.
  destruct (theme_groups_ok (fun _ => True) dirs) as [Hn Hok]; [auto|].
  pose proof (theme_groups_members dirs base) as Hm. unfold members_of in Hm.
  split.
  - intros Hin. split; [apply (Hok _ Hin)|].
    apply (dict_In_get _ _ _ Hn) in Hin. now rewrite Hin in Hm.
  - intros [Hne ->].
    destruct (dict_get (theme_groups dirs) base) as [members|] eqn:E.
    + apply dict_get_In in E. now rewrite <- Hm.
    + now rewrite <- Hm in Hne.
Qed.

Lemma generate_theme_map_lookup_permuted dirs dirs' k v :
  Permutation (scanned_names dirs) (scanned_names dirs') ->
  names_comma_free dirs -> names_comma_free dirs' ->
  dict_get (generate_theme_map dirs) k = Some v ->
  dict_get (generate_theme_map dirs') k = Some v.
Proof.
  intros Hp Hc Hc' H.
  apply (generate_theme_map_lookup_iff dirs k v Hc) in H.
  destruct H as [base [themes [Hin He]]].
  apply (generate_theme_map_lookup_iff dirs' k v Hc').
  apply theme_groups_In_members in Hin. destruct Hin as [Hne ->].
  assert (Hpm : Permutation (with_base base (scanned_names dirs))
                            (with_base base (scanned_names dirs')))
    by (now apply filter_permutation).
  exists base, (with_base base (scanned_names dirs')). split.
  - apply theme_groups_In_members. split; [|reflexivity].
    intros E. rewrite E in Hpm.
    apply Permutation_sym, Permutation_nil in Hpm. now apply Hne.
  - now apply (family_entry_permutation _ _ k v Hpm).
Qed.

(** X8. With comma-free theme names, the answers of the pairing table do
    not depend on the order in which the directories are listed or
    scanned: two scans that meet the same names equally often build tables
    that map every key to the same value. *)
Theorem generate_theme_map_scan_order :
  forall (dirs dirs' : list ThemeDir) (k : str),
    names_comma_free dirs ->
    Permutation (scanned_names dirs) (scanned_names dirs') ->
    dict_get (generate_theme_map dirs) k = dict_get (generate_theme_map dirs') k.
Proof.
  intros dirs dirs' k Hc Hp.
  assert (Hc' : names_comma_free dirs').
  { apply names_comma_free_scanned. intros x Hx.
    apply (proj1 (names_comma_free_scanned dirs) Hc).
    now apply (Permutation_in x (Permutation_sym Hp)). }
  destruct (dict_get (generate_theme_map dirs) k) as [v|] eqn:E.
  - symmetry. now apply (generate_theme_map_lookup_permuted dirs dirs' k v).
  - destruct (dict_get (generate_theme_map dirs') k) as [v'|] eqn:E';
      [|reflexivity].
    apply (generate_theme_map_lookup_permuted dirs' dirs k v'
             (Permutation_sym Hp) Hc' Hc) in E'.
    congruence.
Qed.

Lemma dirs_adwaita_reordered_permutation :
  Permutation (scanned_names dirs_adwaita) (scanned_names dirs_adwaita_reordered).
Proof.
  apply (Permutation_cons_app
           [lit "Adwaita-Dark"; lit "Greybird"; lit "Adwaita-Light"] []
           (lit "Adwaita")).
  apply (Permutation_cons_app
           [lit "Adwaita-Dark"; lit "Greybird"] [] (lit "Adwaita-Light")).
  apply Permutation_refl.
Qed.

Lemma generate_theme_map_scan_order_witness :
  dict_get (generate_theme_map dirs_adwaita) (lit "Adwaita-Dark")
  = dict_get (generate_theme_map dirs_adwaita_reordered) (lit "Adwaita-Dark").
Proof.
  exact (generate_theme_map_scan_order dirs_adwaita dirs_adwaita_reordered
           (lit "Adwaita-Dark") dirs_adwaita_comma_free
           dirs_adwaita_reordered_permutation).
Defined.

(** ** Listing all themes *)

Lemma set_add_In x y l : In y (set_add x l) <-> y = x \/ In y l.
Proof.
  induction l as [|z l IH]; simpl.
  - intuition congruence.
  - destruct (str_eqb x z) eqn:E.
    + apply str_eqb_eq in E. subst z. simpl. intuition congruence.
    + simpl. rewrite IH. intuition congruence.
Qed.

Lemma set_add_NoDup x l : NoDup l -> NoDup (set_add x l).
Proof.
  induction l as [|z l IH]; simpl; intros H.
  - constructor; [intros [] | constructor].
  - destruct (str_eqb x z) eqn:E; [exact H|].
    inversion H as [|? ? Hz Hl]; subst. constructor; [|now apply IH].
    rewrite set_add_In. intros [->|Hin]; [|contradiction].
    rewrite str_eqb_refl in E. discriminate.
Qed.

Lemma collected_entries_spec entries : forall themes,
  let themes' :=
    fold_left
      (fun themes theme_path =>
         if entry_is_dir theme_path
         then set_add (entry_name theme_path) themes
         else themes)
      entries themes in
  (NoDup themes -> NoDup themes')
  /\ forall y, In y themes'
               <-> In y themes
                   \/ In y (map entry_name (filter entry_is_dir entries)).
Proof.
  induction entries as [|e entries IH]; intros themes; simpl.
  - split; [auto | intros y; tauto].
  - destruct (IH (if entry_is_dir e then set_add (entry_name e) themes
                  else themes)) as [Hn Hi].
    split.
    + intros H. apply Hn. destruct (entry_is_dir e); [|exact H].
      now apply set_add_NoDup.
    + intros y. rewrite Hi. destruct (entry_is_dir e); simpl; [|tauto].
      rewrite set_add_In. intuition congruence.
Qed.

Lemma collected_themes_spec dirs : forall themes,
  (NoDup themes -> NoDup (collected_themes dirs themes))
  /\ forall y, In y (collected_themes dirs themes)
               <-> In y themes \/ In y (scanned_names dirs).
Proof.
  unfold collected_themes.
  induction dirs as [|d dirs IH]; intros themes; simpl.
  - split; [auto | intros y; tauto].
  - destruct d as [entries|].
    + destruct (collected_entries_spec entries themes) as [Hn1 Hi1].
      cbv zeta in Hn1, Hi1.
      match goal with
      | |- context [fold_left _ dirs ?a] => destruct (IH a) as [Hn Hi]
      end.
      split; [auto|]. intros y. rewrite Hi, Hi1, in_app_iff. tauto.
    + destruct (IH themes) as [Hn Hi]. split; [auto|].
      intros y. rewrite Hi. simpl. tauto.
Qed.

Lemma ascending_strict l :
  ascending_from l -> NoDup l -> strictly_ascending l.
Proof.
  induction l as [|x l IH]; simpl; [auto|].
  intros [Hx Hl] Hn. inversion Hn as [|? ? Hnx Hnl]; subst.
  split; [|now apply IH].
  intros y Hy. destruct (Hx y Hy) as [H|H]; [exact H|].
  subst y. contradiction.
Qed.

(** X9. [list_all_themes] returns exactly the names of the sub-directories
    of the existing search paths, each once however many paths hold it, in
    strictly ascending lexical order. *)
Theorem list_all_themes_sorted_set :
  forall dirs : list ThemeDir,
    (forall x, In x (list_all_themes dirs) <-> In x (scanned_names dirs))
    /\ strictly_ascending (list_all_themes dirs).
Proof.
  intros dirs.
  destruct (collected_themes_spec dirs []) as [Hn Hi].
  change (list_all_themes dirs) with (sorted (collected_themes dirs [])).
  split.
  - intros x. rewrite sorted_In, Hi. simpl. tauto.
  - apply ascending_strict; [apply sorted_ascending|].
    apply (Permutation_NoDup (Permutation_sym (sorted_Permutation _))).
    apply Hn. constructor.
Qed.

(** ** Whitespace around a name *)


Lemma lstrip_head s c r : lstrip s = c :: r -> is_space c = false.
Proof.
  induction s as [|a s IH]; simpl; [discriminate|].
  destruct (is_space a) eqn:S; [exact IH|]. intros [= <- _]. exact S.
Qed.


(** The result of [strip] does not end in whitespace. *)
Lemma strip_last s r c : strip s = r ++ [c] -> is_space c = false.
Proof.
  unfold strip. intros E.
  apply (f_equal (@rev ascii)) in E.
  rewrite rev_involutive, rev_app_distr in E. simpl in E.
  now apply lstrip_head in E.
Qed.









(** ** Reading back what was set *)




Lemma xfconf_get_set_other_prop channel prop value prop' w :
  prop <> prop' ->
  xfconf_query_get channel prop' (xfconf_query_set channel prop value w)
  = xfconf_query_get channel prop' w.
Proof.
  intros N. unfold xfconf_query_get, xfconf_query_set. simpl.
  rewrite dict_get_set_same.
  destruct (dict_get (xfconf w) channel) as [props|];
    now rewrite dict_get_set_other.
Qed.




(** ** Toggling with a counterpart *)















(** ** More on the dark window *)

Lemma str_ltb_total a b :
  str_ltb a b = false -> str_ltb b a = false -> a = b.
Proof.
  intros H1 H2. destruct (lex_total a b) as [L|[E|G]]; [|exact E|].
  - apply str_ltb_lex in L. congruence.
  - apply str_ltb_lex in G. congruence.
Qed.

Lemma str_ltb_asym a b : str_ltb a b = true -> str_ltb b a = false.
Proof.
  intros H. destruct (str_ltb b a) eqn:E; [|reflexivity].
  apply str_ltb_lex in H, E. now apply lex_lt_asym in H.
Qed.

(** X14. Exchanging the start and the end of a dark window whose ends
    differ turns the window into its complement: a time is dark for the
    one exactly when it is not dark for the other. *)
Theorem is_dark_time_swapped_window :
  forall (self self' : App.t) (now : str),
    dark_start (App.config self') = dark_end (App.config self) ->
    dark_end (App.config self') = dark_start (App.config self) ->
    dark_start (App.config self) <> dark_end (App.config self) ->
    App.is_dark_time self' now = negb (App.is_dark_time self now).
Proof.
  intros self self' now Es Ee N. unfold App.is_dark_time. cbv zeta.
  rewrite Es, Ee. unfold str_geb. rewrite !str_leb_ltb.
  destruct (str_ltb (dark_start (App.config self)) (dark_end (App.config self)))
    eqn:L.
  - rewrite (str_ltb_asym _ _ L).
    destruct (str_ltb now (dark_start (App.config self))),
             (str_ltb now (dark_end (App.config self))); reflexivity.
  - destruct (str_ltb (dark_end (App.config self)) (dark_start (App.config self)))
      eqn:G.
    + destruct (str_ltb now (dark_start (App.config self))),
               (str_ltb now (dark_end (App.config self))); reflexivity.
    + exfalso. apply N. now apply str_ltb_total.
Qed.

Lemma is_dark_time_swapped_window_witness :
  App.is_dark_time (app_with_window "05:00" "19:00") (lit "12:00")
  = negb (App.is_dark_time (app_with_window "19:00" "05:00") (lit "12:00")).
Proof.
  apply is_dark_time_swapped_window; [reflexivity | reflexivity | discriminate].
Defined.

(** X15. For a window and a clock reading that are zero-padded HH:MM times
    of day, the lexical comparisons of the evaluator agree with the clock:
    with the three read as minutes since midnight, it is dark from start
    (included) to end (excluded) when start is before end, and from start
    through midnight up to end otherwise. *)
Theorem is_dark_time_on_the_clock :
  forall (self : App.t) (now : str) (ms me mn : nat),
    hhmm_minutes (dark_start (App.config self)) = Some ms ->
    hhmm_minutes (dark_end (App.config self)) = Some me ->
    hhmm_minutes now = Some mn ->
    (App.is_dark_time self now = true
     <-> (ms < me /\ ms <= mn < me) \/ (me <= ms /\ (ms <= mn \/ mn < me))).
Proof.
  intros self now ms me mn Hs He Hn.
  rewrite <- (dark_window_clock _ _ _ ms me mn Hs He Hn).
  unfold App.is_dark_time. apply dark_window_test.
Qed.

Lemma is_dark_time_on_the_clock_witness :
  App.is_dark_time (app_with_window "19:00" "05:00") (lit "23:30") = true
  <-> (1140 < 300 /\ 1140 <= 1410 < 300)
      \/ (300 <= 1140 /\ (1140 <= 1410 \/ 1410 < 300)).
Proof.
  exact (is_dark_time_on_the_clock (app_with_window "19:00" "05:00")
           (lit "23:30") 1140 300 1410 eq_refl eq_refl eq_refl).
Defined.

(** ** Accepted dark intervals *)

Lemma digit_not_hyphen c : is_digit c = true -> chr_eqb c hyphen = false.
Proof.
  unfold is_digit. intros H. apply andb_true_iff in H. destruct H as [H1 H2].
  apply Nat.leb_le in H1. apply Nat.leb_le in H2.
  destruct (chr_eqb c hyphen) eqn:E; [|reflexivity].
  apply chr_eqb_eq in E. subst c. vm_compute in H1. lia.
Qed.

Lemma colon_not_hyphen c : chr_eqb c colon = true -> chr_eqb c hyphen = false.
Proof. intros H. apply chr_eqb_eq in H. now subst c. Qed.

(** An interval that passes the format check and does not end in a newline
    is two DD:DD halves around one hyphen, and splits into them. *)
Lemma match_interval_halves s :
  match_interval s = true ->
  (forall r, s <> r ++ [newline]) ->
  exists start end_,
    s = start ++ hyphen :: end_
    /\ hhmm_shape start = true /\ hhmm_shape end_ = true
    /\ split_on hyphen s = [start; end_].
Proof.
  intros H Hnl. unfold match_interval in H.
  destruct s as [|h1 [|h2 [|c1 [|m1 [|m2 [|d [|h3 [|h4 [|c2 [|m3 [|m4 rest]]]]]]]]]]];
    try discriminate.
  do 11 (apply andb_true_iff in H; destruct H as [H ?]).
  assert (rest = []).
  { destruct rest as [|n [|? ?]]; [reflexivity | | discriminate].
    exfalso. apply (Hnl [h1; h2; c1; m1; m2; d; h3; h4; c2; m3; m4]).
    match goal with X : chr_eqb n newline = true |- _ =>
      apply chr_eqb_eq in X; now subst n end. }
  subst rest.
  match goal with X : chr_eqb d hyphen = true |- _ =>
    apply chr_eqb_eq in X; subst d end.
  exists [h1; h2; c1; m1; m2], [h3; h4; c2; m3; m4].
  split; [reflexivity|].
  split; [unfold hhmm_shape; rewrite !andb_true_iff; tauto|].
  split; [unfold hhmm_shape; rewrite !andb_true_iff; tauto|].
  cbn [split_on].
  repeat match goal with
         | X : is_digit ?c = true |- _ =>
             rewrite (digit_not_hyphen c X); clear X
         | X : chr_eqb ?c colon = true |- _ =>
             rewrite (colon_not_hyphen c X); clear X
         end.
  now rewrite chr_eqb_refl.
Qed.

Lemma strip_no_final_newline s r : strip s <> r ++ [newline].
Proof. intros E. apply strip_last in E. discriminate. Qed.

Lemma set_dark_interval_entered self stdout w :
  match_interval (strip stdout) = true ->
  exists start end_,
    strip stdout = start ++ hyphen :: end_
    /\ hhmm_shape start = true /\ hhmm_shape end_ = true
    /\ App.set_dark_interval self (App.Entered stdout) w
       = (let self' := {|
              App.config := {|
                auto_switch_enabled := auto_switch_enabled (App.config self);
                dark_start := start;
                dark_end := end_;
                last_theme := last_theme (App.config self) |};
              App.theme_map := App.theme_map self |} in
          (self', App.rebuild_menu self' (save_config (App.config self') w))).
Proof.
  intros H.
  destruct (match_interval_halves (strip stdout) H
              (fun r => strip_no_final_newline stdout r))
    as [start [end_ [E [Hs [He Hsplit]]]]].
  exists start, end_. repeat (split; [assumption|]).
  unfold App.set_dark_interval. now rewrite H, Hsplit.
Qed.

(** X16. An entry that passes the format check (after stripping
    whitespace) is two DD:DD halves around a hyphen; the halves become the
    new start and end of the dark window, the other settings and the
    pairing table stay as they are, the menu is rebuilt, and the settings
    file holds the new settings when it can be written.  When it cannot,
    the in-memory settings change all the same, the file keeps its old
    content and the failure to save is printed. *)
Theorem set_dark_interval_accepted :
  forall (self : App.t) (stdout : str) (w : World),
    match_interval (strip stdout) = true ->
    exists start end_,
      strip stdout = start ++ hyphen :: end_
      /\ hhmm_shape start = true /\ hhmm_shape end_ = true
      /\ dark_start (App.config (fst (App.set_dark_interval self (App.Entered stdout) w)))
         = start
      /\ dark_end (App.config (fst (App.set_dark_interval self (App.Entered stdout) w)))
         = end_
      /\ auto_switch_enabled
           (App.config (fst (App.set_dark_interval self (App.Entered stdout) w)))
         = auto_switch_enabled (App.config self)
      /\ last_theme
           (App.config (fst (App.set_dark_interval self (App.Entered stdout) w)))
         = last_theme (App.config self)
      /\ App.theme_map (fst (App.set_dark_interval self (App.Entered stdout) w))
         = App.theme_map self
      /\ config_file (snd (App.set_dark_interval self (App.Entered stdout) w))
         = (if config_writable w
            then Some (App.config
                         (fst (App.set_dark_interval self (App.Entered stdout) w)))
            else config_file w)
      /\ trace (snd (App.set_dark_interval self (App.Entered stdout) w))
         = trace w
           ++ (if config_writable w then []
               else [Printed (lit "[Config] Could not save config")])
           ++ [MenuRebuilt (lit "Set Dark Interval (" ++ start ++ lit "-"
                            ++ end_ ++ lit ")")].
Proof.
  intros self stdout w H.
  destruct (set_dark_interval_entered self stdout w H)
    as [start [end_ [E [Hs [He R]]]]].
  exists start, end_. rewrite R. cbv zeta.
  repeat (split; [assumption || reflexivity|]).
  unfold save_config. destruct (config_writable w); simpl.
  - split; reflexivity.
  - split; [reflexivity|]. now rewrite <- app_assoc.
Qed.

Lemma set_dark_interval_accepted_witness :
  exists start end_,
    strip (lit " 22:30-06:15 ") = start ++ hyphen :: end_
    /\ hhmm_shape start = true /\ hhmm_shape end_ = true
    /\ dark_start (App.config (fst (App.set_dark_interval app_greybird
                     (App.Entered (lit " 22:30-06:15 ")) world_greybird)))
       = start
    /\ dark_end (App.config (fst (App.set_dark_interval app_greybird
                   (App.Entered (lit " 22:30-06:15 ")) world_greybird)))
       = end_
    /\ auto_switch_enabled
         (App.config (fst (App.set_dark_interval app_greybird
            (App.Entered (lit " 22:30-06:15 ")) world_greybird)))
       = auto_switch_enabled (App.config app_greybird)
    /\ last_theme
         (App.config (fst (App.set_dark_interval app_greybird
            (App.Entered (lit " 22:30-06:15 ")) world_greybird)))
       = last_theme (App.config app_greybird)
    /\ App.theme_map (fst (App.set_dark_interval app_greybird
         (App.Entered (lit " 22:30-06:15 ")) world_greybird))
       = App.theme_map app_greybird
    /\ config_file (snd (App.set_dark_interval app_greybird
         (App.Entered (lit " 22:30-06:15 ")) world_greybird))
       = (if config_writable world_greybird
          then Some (App.config
                       (fst (App.set_dark_interval app_greybird
                          (App.Entered (lit " 22:30-06:15 ")) world_greybird)))
          else config_file world_greybird)
    /\ trace (snd (App.set_dark_interval app_greybird
         (App.Entered (lit " 22:30-06:15 ")) world_greybird))
       = trace world_greybird
         ++ (if config_writable world_greybird then []
             else [Printed (lit "[Config] Could not save config")])
         ++ [MenuRebuilt (lit "Set Dark Interval (" ++ start ++ lit "-"
                          ++ end_ ++ lit ")")].
Proof.
  exact (set_dark_interval_accepted app_greybird (lit " 22:30-06:15 ")
           world_greybird eq_refl).
Defined.

(** X17. Whatever the dialog returns (a well-formed entry, a malformed
    one, or a failure), a dark window whose start and end have the shape
    DD:DD keeps that shape, and the pairing table, the auto-switch flag
    and the last theme are never changed by setting the interval. *)
Theorem set_dark_interval_keeps_shape :
  forall (self : App.t) (dialog : App.Dialog) (w : World),
    hhmm_shape (dark_start (App.config self)) = true ->
    hhmm_shape (dark_end (App.config self)) = true ->
    hhmm_shape (dark_start (App.config (fst (App.set_dark_interval self dialog w))))
    = true
    /\ hhmm_shape (dark_end (App.config (fst (App.set_dark_interval self dialog w))))
       = true
    /\ App.theme_map (fst (App.set_dark_interval self dialog w))
       = App.theme_map self
    /\ auto_switch_enabled (App.config (fst (App.set_dark_interval self dialog w)))
       = auto_switch_enabled (App.config self)
    /\ last_theme (App.config (fst (App.set_dark_interval self dialog w)))
       = last_theme (App.config self).
Proof.
  intros self dialog w Hs He. destruct dialog as [stdout|e].
  - destruct (match_interval (strip stdout)) eqn:M.
    + destruct (set_dark_interval_entered self stdout w M)
        as [start [end_ [_ [Hs' [He' R]]]]].
      rewrite R. cbv zeta. simpl. auto.
    + rewrite (set_dark_interval_rejects_bad_shape self stdout w M). simpl. auto.
  - simpl. auto.
Qed.

Lemma set_dark_interval_keeps_shape_witness :
  hhmm_shape (dark_start (App.config (fst (App.set_dark_interval app_greybird
                (App.Entered (lit "nonsense")) world_greybird)))) = true
  /\ hhmm_shape (dark_end (App.config (fst (App.set_dark_interval app_greybird
                  (App.Entered (lit "nonsense")) world_greybird)))) = true
  /\ App.theme_map (fst (App.set_dark_interval app_greybird
       (App.Entered (lit "nonsense")) world_greybird))
     = App.theme_map app_greybird
  /\ auto_switch_enabled (App.config (fst (App.set_dark_interval app_greybird
       (App.Entered (lit "nonsense")) world_greybird)))
     = auto_switch_enabled (App.config app_greybird)
  /\ last_theme (App.config (fst (App.set_dark_interval app_greybird
       (App.Entered (lit "nonsense")) world_greybird)))
     = last_theme (App.config app_greybird).
Proof.
  exact (set_dark_interval_keeps_shape app_greybird
           (App.Entered (lit "nonsense")) world_greybird eq_refl eq_refl).
Defined.

(** ** The auto-switch loop *)

Lemma tick_idle app now w :
  auto_switch_enabled (App.config app) = false
  \/ get_current_mode None w = window_mode app now ->
  AutoSwitch.tick app now w = w.
Proof.
  unfold AutoSwitch.tick, window_mode. cbv zeta.
  intros [H|H]; [now rewrite H|].
  destruct (auto_switch_enabled (App.config app)); [|reflexivity].
  rewrite H. now destruct (App.is_dark_time app now).
Qed.

Lemma tick_toggles app now w :
  auto_switch_enabled (App.config app) = true ->
  get_current_mode None w <> window_mode app now ->
  AutoSwitch.tick app now w = App.toggle_theme app w.
Proof.
  unfold AutoSwitch.tick, window_mode. cbv zeta. intros H N. rewrite H.
  destruct (App.is_dark_time app now), (get_current_mode None w);
    try reflexivity; now exfalso.
Qed.

Lemma mode_eq_dec (a b : Mode) : {a = b} + {a <> b}.
Proof. decide equality. Qed.

(** X18. A pass of the auto-switch loop leaves everything as it is, trace
    included, when auto-switch is off or the mode of the current theme is
    the one the dark window asks for; and when the current theme has no
    counterpart in the table, a pass may print but changes neither xfconf
    nor the settings file. *)
Theorem tick_changes_nothing :
  forall (app : App.t) (now : str) (w : World),
    (auto_switch_enabled (App.config app) = false
     \/ get_current_mode None w = window_mode app now ->
     AutoSwitch.tick app now w = w)
    /\ (no_counterpart (get_current_theme w) (App.theme_map app) ->
        same_state w (AutoSwitch.tick app now w)).
Proof.
  intros app now w. split; [apply tick_idle|].
  intros H.
  destruct (auto_switch_enabled (App.config app)) eqn:A;
    [|rewrite tick_idle; [apply same_state_refl | now left]].
  destruct (mode_eq_dec (get_current_mode None w) (window_mode app now)) as [E|N].
  - rewrite tick_idle; [apply same_state_refl | now right].
  - rewrite (tick_toggles app now w A N).
    unfold App.toggle_theme. cbv zeta. rewrite (no_counterpart_find _ _ H).
    apply same_state_print, same_state_refl.
Qed.

Lemma tick_changes_nothing_witness :
  AutoSwitch.tick app_greybird (lit "23:00") world_greybird = world_greybird
  /\ same_state world_greybird
       (AutoSwitch.tick (app_with_window "19:00" "05:00") (lit "23:00")
          world_greybird).
Proof.
  split.
  - apply (tick_changes_nothing app_greybird (lit "23:00") world_greybird).
    left. reflexivity.
  - apply (tick_changes_nothing (app_with_window "19:00" "05:00") (lit "23:00")
             world_greybird).
    intros key value [].
Defined.




(** ** Names that are their own base name *)

Lemma base_name_length_bound n : forall s,
  List.length s <= n -> List.length (base_name s) <= List.length s.
Proof.
  induction n as [|n IH]; intros s Hn.
  - destruct s; [simpl; lia | simpl in Hn; lia].
  - rewrite base_name_unfold. destruct s as [|c s]; [simpl; lia|].
    destruct (match_hyphen_alt suffix_words (c :: s)) as [rest|] eqn:M.
    + destruct (match_hyphen_alt_token _ _ M) as [tok [[w [-> _]] E]].
      simpl in E. inversion E as [[Hc Hs]]. subst s.
      simpl in Hn. rewrite length_app in Hn.
      assert (List.length (base_name rest) <= List.length rest)
        by (apply IH; lia).
      simpl. rewrite length_app. lia.
    + simpl in *. assert (List.length (base_name s) <= List.length s)
        by (apply IH; lia). lia.
Qed.

Lemma base_name_length s : List.length (base_name s) <= List.length s.
Proof. now apply (base_name_length_bound (List.length s)). Qed.

Lemma base_name_shrinks pre tok post :
  hyphen_word suffix_words tok ->
  List.length (base_name (pre ++ tok ++ post)) < List.length (pre ++ tok ++ post).
Proof.
  intros Htok. induction pre as [|c pre IH].
  - simpl. rewrite (base_name_token tok post Htok).
    pose proof (base_name_length post). destruct Htok as [w [-> _]].
    simpl. rewrite length_app. lia.
  - rewrite base_name_unfold.
    change ((c :: pre) ++ tok ++ post) with (c :: (pre ++ tok ++ post)).
    destruct (match_hyphen_alt suffix_words (c :: pre ++ tok ++ post))
      as [rest|] eqn:M.
    + destruct (match_hyphen_alt_token _ _ M) as [tok' [[w [-> _]] E]].
      pose proof (base_name_length rest). rewrite E.
      simpl. rewrite length_app. lia.
    + simpl. simpl in IH. lia.
Qed.

(** X20. The base name is never longer than the name, and it equals the
    name exactly when the name holds no hyphen followed by dark, light,
    black or noir (in any mix of cases). *)
Theorem base_name_fixed_iff_suffix_free :
  forall s : str,
    List.length (base_name s) <= List.length s
    /\ (base_name s = s <-> suffix_free s).
Proof.
  intros s. split; [apply base_name_length|]. split.
  - intros E pre tok post Htok Hs.
    pose proof (base_name_shrinks pre tok post Htok) as H.
    rewrite <- Hs, E in H. lia.
  - apply base_name_free.
Qed.

(** ** The command line *)

Lemma generate_theme_map_empty_iff dirs :
  generate_theme_map dirs = []
  <-> forall base themes,
        In (base, themes) (theme_groups dirs) ->
        ~ (has_mode Light themes /\ has_mode Dark themes).
Proof.
  split.
  - intros E base themes Hin [L D].
    destruct (fold_add_family_keys (theme_groups dirs) [] (base, themes)
                Hin L D) as [H _].
    fold (generate_theme_map dirs) in H. rewrite E in H. destruct H.
  - intros H. destruct (generate_theme_map dirs) as [|[k v] rest] eqn:E;
      [reflexivity|].
    exfalso.
    destruct (generate_theme_map_table_of_groups dirs k v)
      as [base [themes [Hin [L [D _]]]]]; [rewrite E; now left|].
    apply (H base themes Hin). auto.
Qed.

(** X21. The pairing table is empty exactly when no family has both a
    light and a dark member, and then the [list] command prints that no
    theme pairs were found and nothing else. *)
Theorem list_themes_no_pairs :
  forall w : World,
    (generate_theme_map (theme_dirs w) = []
     <-> forall base themes,
           In (base, themes) (theme_groups (theme_dirs w)) ->
           ~ (has_mode Light themes /\ has_mode Dark themes))
    /\ (generate_theme_map (theme_dirs w) = [] ->
        Cli.list_themes w = print (lit "No theme pairs found.") w).
Proof.
  intros w. split; [apply generate_theme_map_empty_iff|].
  intros E. unfold Cli.list_themes. cbv zeta. now rewrite E.
Qed.

Lemma list_themes_no_pairs_witness :
  Cli.list_themes world_only_greybird
  = print (lit "No theme pairs found.") world_only_greybird.
Proof.
  exact (proj2 (list_themes_no_pairs world_only_greybird) eq_refl).
Defined.

(** X22. The [interval] command stores its two arguments without any
    check and always prints that the interval was set.  When the settings
    file can be written, the [time] command evaluates exactly that window
    afterwards; when it cannot, the settings read back are the old ones
    and the failure to save is printed as well. *)
Theorem cli_interval_then_time :
  forall (start_time end_time now : str) (w : World),
    let w' := Cli.set_dark_interval start_time end_time w in
    In (Printed (lit "Dark mode interval set to: " ++ start_time ++ lit " - "
                 ++ end_time)) (trace w')
    /\ (config_writable w = true ->
        dark_start (load_config w') = start_time
        /\ dark_end (load_config w') = end_time
        /\ auto_switch_enabled (load_config w')
           = auto_switch_enabled (load_config w)
        /\ (fst (Cli.is_dark_time now w') = true
            <-> dark_window start_time end_time now))
    /\ (config_writable w = false ->
        load_config w' = load_config w
        /\ In (Printed (lit "[Config] Could not save config")) (trace w')).
Proof.
  intros start_time end_time now w w'. subst w'.
  unfold Cli.set_dark_interval. cbv zeta. split; [|split].
  - simpl. apply in_or_app. right. now left.
  - intros Hw.
    assert (E : load_config
                  (print (lit "Dark mode interval set to: " ++ start_time
                          ++ lit " - " ++ end_time)
                     (save_config
                        (Cli.with_dark_interval (load_config w) start_time
                           end_time) w))
                = Cli.with_dark_interval (load_config w) start_time end_time).
    { unfold save_config. now rewrite Hw. }
    split; [now rewrite E|]. split; [now rewrite E|]. split; [now rewrite E|].
    unfold Cli.is_dark_time. cbv zeta. cbn [fst]. rewrite E.
    exact (dark_window_test start_time end_time now).
  - intros Hw. unfold save_config. rewrite Hw. split; [reflexivity|].
    simpl. apply in_or_app. left. apply in_or_app. right. now left.
Qed.

Lemma cli_interval_then_time_witness :
  dark_start (load_config (Cli.set_dark_interval (lit "soon") (lit "later")
                                                 world_greybird))
  = lit "soon"
  /\ dark_end (load_config (Cli.set_dark_interval (lit "soon") (lit "later")
                                                  world_greybird))
     = lit "later"
  /\ auto_switch_enabled
       (load_config (Cli.set_dark_interval (lit "soon") (lit "later")
                                           world_greybird))
     = auto_switch_enabled (load_config world_greybird)
  /\ (fst (Cli.is_dark_time (lit "12:00")
             (Cli.set_dark_interval (lit "soon") (lit "later") world_greybird))
      = true
      <-> dark_window (lit "soon") (lit "later") (lit "12:00")).
Proof.
  exact (proj1 (proj2 (cli_interval_then_time (lit "soon") (lit "later")
                         (lit "12:00") world_greybird)) eq_refl).
Defined.

Lemma opposite_side_permutation l l' t :
  Permutation l l' -> opposite_side l t = opposite_side l' t.
Proof.
  intros Hp. unfold opposite_side, dark_variants, light_variants.
  destruct (classify t); now apply sorted_of_permutation, filter_permutation.
Qed.

Lemma find_counterpart_permuted dirs dirs' t c :
  Permutation (scanned_names dirs) (scanned_names dirs') ->
  names_comma_free dirs -> names_comma_free dirs' ->
  find_counterpart_theme t (generate_theme_map dirs) = Some c ->
  find_counterpart_theme t (generate_theme_map dirs') = Some c.
Proof.
  intros Hp Hc Hc' F.
  destruct (find_counterpart_found dirs t c Hc F)
    as [base [themes [Hin [Ht [L [D ->]]]]]].
  apply theme_groups_In_members in Hin. destruct Hin as [Hne E].
  assert (Hpm : Permutation themes (with_base base (scanned_names dirs'))).
  { rewrite E. now apply filter_permutation. }
  rewrite (opposite_side_permutation _ _ t Hpm).
  apply (find_counterpart_member dirs' base); auto.
  - apply theme_groups_In_members. split; [|reflexivity].
    intros E'. rewrite E' in Hpm. apply Permutation_sym, Permutation_nil in Hpm.
    now apply Hne.
  - now apply (Permutation_in t Hpm).
  - now apply (has_mode_permutation Light _ _ Hpm).
  - now apply (has_mode_permutation Dark _ _ Hpm).
Qed.

(** X23. With comma-free theme names, the counterpart found for a theme
    does not depend on the order in which the directories are listed or
    scanned: two scans that meet the same names equally often give the
    same answer to every lookup. *)
Theorem find_counterpart_theme_scan_order :
  forall (dirs dirs' : list ThemeDir) (t : str),
    names_comma_free dirs ->
    Permutation (scanned_names dirs) (scanned_names dirs') ->
    find_counterpart_theme t (generate_theme_map dirs)
    = find_counterpart_theme t (generate_theme_map dirs').
Proof.
  intros dirs dirs' t Hc Hp.
  assert (Hc' : names_comma_free dirs').
  { apply names_comma_free_scanned. intros x Hx.
    apply (proj1 (names_comma_free_scanned dirs) Hc).
    now apply (Permutation_in x (Permutation_sym Hp)). }
  destruct (find_counterpart_theme t (generate_theme_map dirs)) as [c|] eqn:F.
  - symmetry. now apply (find_counterpart_permuted dirs dirs' t c).
  - destruct (find_counterpart_theme t (generate_theme_map dirs')) as [c'|] eqn:F';
      [|reflexivity].
    apply (find_counterpart_permuted dirs' dirs t c' (Permutation_sym Hp) Hc' Hc)
      in F'.
    congruence.
Qed.

Lemma find_counterpart_theme_scan_order_witness :
  find_counterpart_theme (lit "Adwaita-Dark") (generate_theme_map dirs_adwaita)
  = find_counterpart_theme (lit "Adwaita-Dark")
      (generate_theme_map dirs_adwaita_reordered).
Proof.
  exact (find_counterpart_theme_scan_order dirs_adwaita dirs_adwaita_reordered
           (lit "Adwaita-Dark") dirs_adwaita_comma_free
           dirs_adwaita_reordered_permutation).
Defined.

(** X24. Switching auto-switch on or off from the command line never
    changes the dark window: the [time] command gives the same verdict
    before and after, whether or not the settings file could be written;
    when it could, the flag reads back as it was set. *)
Theorem cli_auto_switch_keeps_window :
  forall (enabled : bool) (now : str) (w : World),
    let w' := Cli.set_auto_switch enabled w in
    dark_start (load_config w') = dark_start (load_config w)
    /\ dark_end (load_config w') = dark_end (load_config w)
    /\ fst (Cli.is_dark_time now w') = fst (Cli.is_dark_time now w)
    /\ (config_writable w = true ->
        auto_switch_enabled (load_config w') = enabled).
Proof.
  intros enabled now w w'. subst w'.
  unfold Cli.set_auto_switch, Cli.is_dark_time, save_config. cbv zeta.
  destruct (config_writable w); simpl; repeat split; try reflexivity.
  discriminate.
Qed.

